(** * cellsnp-lite: pileup statistics, genotype likelihoods and SNP list

    A shallow embedding of [src/mplp.h] and [src/snp.c].

    Conventions of the embedding:
    - C integers ([int], [int8_t], [size_t]) are [Z]; no operation modelled
      here does arithmetic that can leave the type's range except the
      [%ld] conversion of a [size_t], whose reinterpretation is written out.
    - In the likelihood computations [double] is idealised as the real
      numbers [R]; [log] is [ln], and [pow(0.1, x)] is [Rpower (1/10) x].
      Where doubles are printed ([csp_plp_str_vcf]) the text depends on the
      sign of a zero and on the rounding of the product, so there a
      [double] is a binary64 value ([spec_float]) with the arithmetic of
      IEEE 754.
    - A pointer that may be NULL is an [option]; a C array is a [list] whose
      length is the allocated size.  Reading or writing outside an array and
      dereferencing NULL are undefined behaviour, modelled by [UB].
    - [kstring_t] buffers are [string]s; appending is [+++].
    - Memory allocation is assumed to succeed. *)

From Stdlib Require Import ZArith List String Ascii Bool Lia.
From Stdlib Require Import DecimalString.
From Stdlib Require Import Reals Lra.
From Stdlib Require Import Floats.SpecFloat.
Import ListNotations.

Set Implicit Arguments.
Local Open Scope string_scope.
Local Open Scope list_scope.
Local Open Scope Z_scope.

(** String concatenation, kept apart from list concatenation. *)
Infix "+++" := String.append (at level 60, right associativity).

(** ** Undefined behaviour as an error monad *)

Inductive res (A : Type) : Type :=
| Ret (a : A)
| UB.
Arguments UB {A}.

Definition bind {A B} (m : res A) (k : A -> res B) : res B :=
  match m with
  | Ret a => k a
  | UB => UB
  end.

Notation "x <- m ;; k" := (bind m (fun x => k))
  (at level 61, m at next level, right associativity).
Notation "' p <- m ;; k" := (bind m (fun x => let p := x in k))
  (at level 61, p pattern, m at next level, right associativity).

Definition is_ret {A} (m : res A) : bool :=
  match m with Ret _ => true | UB => false end.

(** ** C arrays with checked accesses *)

Module Arr.

Definition len {A} (a : list A) : Z := Z.of_nat (List.length a).

Definition in_bounds {A} (a : list A) (i : Z) : bool :=
  (0 <=? i) && (i <? len a).

(** [a[i]] as an rvalue. *)
Definition rd {A} (a : list A) (i : Z) : res A :=
  if 0 <=? i then
    match nth_error a (Z.to_nat i) with
    | Some x => Ret x
    | None => UB
    end
  else UB.

Fixpoint upd {A} (a : list A) (n : nat) (x : A) : list A :=
  match a, n with
  | [], _ => []
  | _ :: t, O => x :: t
  | h :: t, S n' => h :: upd t n' x
  end.

(** [a[i] = x]. *)
Definition wr {A} (a : list A) (i : Z) (x : A) : res (list A) :=
  if in_bounds a i then Ret (upd a (Z.to_nat i) x) else UB.

(** Dereference of a pointer that may be NULL. *)
Definition deref {A} (p : option A) : res A :=
  match p with
  | Some x => Ret x
  | None => UB
  end.

End Arr.

(** ** Counted loops

    [for_range n lo body s] runs [body lo], [body (lo+1)], ... ([n] times),
    threading the state; it is the shape of every
    [for (i = lo; i < lo + n; i++)] of the sources. *)

Fixpoint for_range {S : Type} (n : nat) (i : Z) (body : Z -> S -> res S) (s : S)
  : res S :=
  match n with
  | O => Ret s
  | Datatypes.S n' => s' <- body i s ;; for_range n' (i + 1) body s'
  end.

(** ** Allele inference ([csp_infer_allele], mplp.h) *)

(** Loop state of [csp_infer_allele]: the two best counts and their bases. *)
Record infer_st := { m1 : Z; m2 : Z; k1 : Z; k2 : Z }.

Definition infer_step (bc : list Z) (i : Z) (s : infer_st) : res infer_st :=
  bci <- Arr.rd bc i ;;
  if bci >? m1 s then
    Ret {| m1 := bci; m2 := m1 s; k1 := i; k2 := k1 s |}
  else if bci >? m2 s then
    Ret {| m1 := m1 s; m2 := bci; k1 := k1 s; k2 := i |}
  else Ret s.

(** Returns [(ref_idx, alt_idx)]. *)
Definition csp_infer_allele (bc : list Z) : res (Z * Z) :=
  bc0 <- Arr.rd bc 0 ;;
  bc1 <- Arr.rd bc 1 ;;
  let s0 :=
    if bc0 <? bc1 then {| m1 := bc1; m2 := bc0; k1 := 1; k2 := 0 |}
    else {| m1 := bc0; m2 := bc1; k1 := 0; k2 := 1 |} in
  s <- for_range 3 2 (infer_step bc) s0 ;;
  Ret (k1 s, k2 s).

(** [bc[i]] for an index known to be valid. *)
Definition cnt (bc : list Z) (i : Z) : Z := nth (Z.to_nat i) bc 0.

(** The contract of allele inference: [r] is the lowest base index holding a
    maximal count, and [a] the lowest index holding a maximal count among
    the four other bases. *)
Definition two_best (bc : list Z) (r a : Z) : Prop :=
  0 <= r <= 4 /\ 0 <= a <= 4 /\ r <> a /\
  (forall j, 0 <= j <= 4 -> cnt bc j <= cnt bc r) /\
  (forall j, 0 <= j < r -> cnt bc j < cnt bc r) /\
  (forall j, 0 <= j <= 4 -> j <> r -> cnt bc j <= cnt bc a) /\
  (forall j, 0 <= j < a -> j <> r -> cnt bc j < cnt bc a).

(** ** Genotype likelihood model ([get_qual_vector], [qual_matrix_to_geno]) *)

Module Geno.

Local Open Scope R_scope.

(** Modelled from the spec: the macro [max2] of [jnumeric.h], which is not
    part of the sources at hand; section 4.3 uses [max2] and [min2] as
    [q = clamp(quality, floor, cap)]. *)
Definition max2 (a b : R) : R := Rmax a b.

(** Modelled from the spec: the macro [min2] of [jnumeric.h], the lower
    half of the same clamp. *)
Definition min2 (a b : R) : R := Rmin a b.

(** The four entries [1-p], [3/4-2p/3], [1/2-p/3], [p] in log space, as
    computed for the error probability [p]. *)
Definition qual_entries (p : R) : list R :=
  [ln (1 - p); ln (0.75 - 2.0 / 3 * p); ln (0.5 - 1.0 / 3 * p); ln p].

(** [get_qual_vector]: writes [rv[0..3]] and returns 0.  The result pairs
    the new contents of [rv] with the return value. *)
Definition get_qual_vector (qual cap_bq min_bq : R) (rv : list R)
  : res (list R * Z) :=
  let bq := max2 (min2 cap_bq qual) min_bq in
  let p := Rpower 0.1 (bq / 10) in
  rv <- Arr.wr rv 0%Z (ln (1 - p)) ;;
  rv <- Arr.wr rv 1%Z (ln (0.75 - 2.0 / 3 * p)) ;;
  rv <- Arr.wr rv 2%Z (ln (0.5 - 1.0 / 3 * p)) ;;
  rv <- Arr.wr rv 3%Z (ln p) ;;
  Ret (rv, 0%Z).

(** Body of the first loop of [qual_matrix_to_geno]:
    [if (i != ref_idx && i != alt_idx) other_idx[noth++] = i;] *)
Definition other_idx_step (ref_idx alt_idx : Z) (i : Z) (s : list Z * Z)
  : res (list Z * Z) :=
  let '(other_idx, noth) := s in
  if negb (i =? ref_idx)%Z && negb (i =? alt_idx)%Z then
    other_idx <- Arr.wr other_idx noth i ;;
    Ret (other_idx, (noth + 1)%Z)
  else Ret s.

(** The first loop as a whole, on the 4-entry local buffer. *)
Definition fill_other_idx (ref_idx alt_idx : Z) : res (list Z * Z) :=
  for_range 5 0%Z (other_idx_step ref_idx alt_idx) ([0; 0; 0; 0]%Z, 0%Z).

(** Body of the second loop:
    [oth_qual += qm[other_idx[i]][3]; tmp_qual += bc[other_idx[i]];] *)
Definition oth_step (qm : list (list R)) (bc : list Z) (other_idx : list Z)
           (i : Z) (s : R * R) : res (R * R) :=
  let '(oth_qual, tmp_qual) := s in
  o <- Arr.rd other_idx i ;;
  row <- Arr.rd qm o ;;
  q3 <- Arr.rd row 3%Z ;;
  c <- Arr.rd bc o ;;
  Ret (oth_qual + q3, tmp_qual + IZR c).

(** [qual_matrix_to_geno]: the result is the new contents of [gl], the
    count stored through [n], and the return value. *)
Definition qual_matrix_to_geno (qm : list (list R)) (bc : list Z)
           (ref_idx alt_idx : Z) (db : Z) (gl : list R)
  : res (list R * Z * Z) :=
  '(other_idx, noth) <- fill_other_idx ref_idx alt_idx ;;
  ref_read <- Arr.rd bc ref_idx ;;
  alt_read <- Arr.rd bc alt_idx ;;
  ref_qual <- Arr.rd qm ref_idx ;;
  alt_qual <- Arr.rd qm alt_idx ;;
  '(oth_qual, tmp_qual) <-
    for_range (Z.to_nat noth) 0%Z (oth_step qm bc other_idx) (0, 0) ;;
  let oth_qual := oth_qual + ln (2.0 / 3) * tmp_qual in
  r0 <- Arr.rd ref_qual 0%Z ;; a3 <- Arr.rd alt_qual 3%Z ;;
  gl <- Arr.wr gl 0%Z (oth_qual + r0 + a3 + ln (1.0 / 3) * IZR alt_read) ;;
  r2 <- Arr.rd ref_qual 2%Z ;; a2 <- Arr.rd alt_qual 2%Z ;;
  gl <- Arr.wr gl 1%Z (oth_qual + r2 + a2) ;;
  r3 <- Arr.rd ref_qual 3%Z ;; a0 <- Arr.rd alt_qual 0%Z ;;
  gl <- Arr.wr gl 2%Z (oth_qual + r3 + a0 + ln (1.0 / 3) * IZR ref_read) ;;
  if (db =? 0)%Z then Ret (gl, 3%Z, 0%Z)
  else
    r1 <- Arr.rd ref_qual 1%Z ;;
    gl <- Arr.wr gl 3%Z (oth_qual + r1 + ln (1.0 / 4) * IZR alt_read) ;;
    a1 <- Arr.rd alt_qual 1%Z ;;
    gl <- Arr.wr gl 4%Z (oth_qual + a1 + ln (1.0 / 4) * IZR ref_read) ;;
    Ret (gl, 5%Z, 0%Z).

(** *** The likelihoods as the specification words them *)

Definition valid_idx (i : Z) : bool := ((0 <=? i) && (i <=? 4))%Z.

(** The bases that are neither ref nor alt, in increasing order. *)
Definition other_bases (ref_idx alt_idx : Z) : list Z :=
  filter (fun i => negb (i =? ref_idx)%Z && negb (i =? alt_idx)%Z)
         [0; 1; 2; 3; 4]%Z.

Definition Rsum (l : list R) : R := fold_right Rplus 0 l.

(** [qm[i][j]] and [bc[i]] for indices known to be valid. *)
Definition Q (qm : list (list R)) (i j : Z) : R :=
  nth (Z.to_nat j) (nth (Z.to_nat i) qm []) 0.
Definition B (bc : list Z) (i : Z) : R := IZR (nth (Z.to_nat i) bc 0%Z).

Definition other_contrib (qm : list (list R)) (bc : list Z)
           (ref_idx alt_idx : Z) : R :=
  Rsum (map (fun i => Q qm i 3) (other_bases ref_idx alt_idx))
  + ln (2 / 3) * Rsum (map (B bc) (other_bases ref_idx alt_idx)).

Definition L_hom_ref qm bc r a : R :=
  other_contrib qm bc r a + Q qm r 0 + Q qm a 3 + ln (1 / 3) * B bc a.
Definition L_het qm bc r a : R :=
  other_contrib qm bc r a + Q qm r 2 + Q qm a 2.
Definition L_hom_alt qm bc r a : R :=
  other_contrib qm bc r a + Q qm r 3 + Q qm a 0 + ln (1 / 3) * B bc r.
Definition L_ref_het qm bc r a : R :=
  other_contrib qm bc r a + Q qm r 1 + ln (1 / 4) * B bc a.
Definition L_het_alt qm bc r a : R :=
  other_contrib qm bc r a + Q qm a 1 + ln (1 / 4) * B bc r.

(** A 5-by-4 quality matrix. *)
Definition qmat_shape (qm : list (list R)) : Prop :=
  List.length qm = 5%nat /\ Forall (fun row => List.length row = 4%nat) qm.

(** A vector whose entries never increase from one to the next. *)
Fixpoint non_increasing (l : list R) : Prop :=
  match l with
  | a :: (b :: _) as t => a >= b /\ non_increasing t
  | _ => True
  end.

End Geno.

(** ** Text output ([kstring.h], [printf] conversions)

    Modelled from the C library and htslib's [kstring.h]: [kputs], [kputc]
    and [ksprintf] append to a growing buffer. *)

Definition tab : string := String (ascii_of_nat 9) "".
Definition nl : string := String (ascii_of_nat 10) "".

(** [%d] of an [int]. *)
Definition fmt_d (z : Z) : string := NilZero.string_of_int (Z.to_int z).

(** [%ld] of a [size_t]: the 64-bit pattern is read back as a signed
    [long]. *)
Definition fmt_ld (z : Z) : string :=
  fmt_d (if z <? 2 ^ 63 then z else z - 2 ^ 64).

(** ** Doubles as binary64 values

    A [double] is a signed zero, a signed infinity, NaN, or
    [(-1)^s * m * 2^e] with a mantissa [m] of at most 53 bits; the
    operations are those of the standard library's specification of
    IEEE 754 arithmetic, which round to nearest, ties to even. *)

Definition double : Type := spec_float.

(** All bits zero: [+0.0]. *)
Definition d_zero : double := S754_zero false.

Definition d_mul : double -> double -> double := SFmul 53 1024.
Definition d_div : double -> double -> double := SFdiv 53 1024.

(** [x > y]; false when either is NaN. *)
Definition d_gt (x y : double) : bool := SFltb y x.

(** The double nearest to [m * 2^e]; exact for an [int] [m] and [e = 0]. *)
Definition d_lit (m e : Z) : double := binary_normalize 53 1024 m e false.

(** Modelled from the C library: [log(10)], the double nearest to [ln 10],
    [0x1.26bb1bbb55516p+1], which lies just above [ln 10]. *)
Definition log_10 : double := S754_finite false 5184960683398422 (-51).

Definition is_nan (x : double) : bool :=
  match x with S754_nan => true | _ => false end.

(** The sign bit of a double that is not NaN. *)
Definition d_sign (x : double) : bool :=
  match x with
  | S754_zero s | S754_infinity s | S754_finite s _ _ => s
  | S754_nan => false
  end.

(** The real number that a finite double stands for. *)
Definition d_R (x : double) : R :=
  match x with
  | S754_finite s m e =>
      ((if s then - IZR (Zpos m) else IZR (Zpos m)) * powerRZ 2 e)%R
  | _ => 0%R
  end.

(** The integer nearest to [m * 2^e], the even one of two that are equally
    near. *)
Definition round_half_even (m : positive) (e : Z) : Z :=
  if 0 <=? e then Zpos m * 2 ^ e
  else
    let d := 2 ^ (- e) in
    let q := Zpos m / d in
    let r := Zpos m mod d in
    if 2 * r <? d then q
    else if d <? 2 * r then q + 1
    else if Z.even q then q else q + 1.

Definition sign_text (s : bool) : string := if s then "-" else "".

(** Modelled from the C library: [%.0f] of a [double].  [printf] writes a
    minus sign when the sign bit is set, also before a zero, then the
    magnitude rounded to an integer (to nearest, ties to even, in the
    default rounding mode), or [inf].  For NaN it writes [nan] or [-nan]
    after a sign bit that IEEE 754 leaves open and [spec_float] does not
    carry; [nan] stands for both. *)
Definition fmt_0f (x : double) : string :=
  match x with
  | S754_zero s => sign_text s +++ "0"
  | S754_infinity s => sign_text s +++ "inf"
  | S754_nan => "nan"
  | S754_finite s m e => sign_text s +++ fmt_d (round_half_even m e)
  end.

(** ** Vectors ([kvec.h])

    Modelled from klib's [kvec.h]: [n] elements in use out of [m]
    allocated, stored in [a]. *)

Record kvec (A : Type) := { kv_n : Z; kv_m : Z; kv_a : list A }.

(** [csp_list_qu_reset(v)] and [csp_list_uu_reset(v)]: [(v).n = 0]. *)
Definition kv_reset {A} (v : kvec A) : kvec A :=
  {| kv_n := 0; kv_m := kv_m v; kv_a := kv_a v |}.

(** ** Hash tables keyed by strings ([khash.h])

    Modelled from htslib's [khash.h]: a table is the sequence of its live
    buckets, and an iterator ([khiter_t]) is the position of a bucket in
    that sequence; [kh_end] is the position after the last one.  No entry
    is ever deleted one by one in the sources, so positions are stable
    between two insertions. *)

Module KHash.

Definition t (V : Type) : Type := list (string * V).

Definition kh_init {V} : t V := [].

Definition kh_end {V} (h : t V) : Z := Arr.len h.

Definition kh_size {V} (h : t V) : Z := Arr.len h.

Fixpoint find_from {V} (h : t V) (key : string) (i : Z) : Z :=
  match h with
  | [] => i
  | (k, _) :: h' => if String.eqb k key then i else find_from h' key (i + 1)
  end.

(** [kh_get(h, key)]: the bucket of [key], or [kh_end(h)]. *)
Definition kh_get {V} (h : t V) (key : string) : Z := find_from h key 0.

(** [kh_put(h, key, &r)]: the table, the bucket of [key] and [r], which is
    0 when the key was present and 1 when a bucket was taken for it; the
    value of a new bucket is [junk] until it is assigned. *)
Definition kh_put {V} (h : t V) (key : string) (junk : V) : t V * Z * Z :=
  let k := kh_get h key in
  if k =? kh_end h then (h ++ [(key, junk)], k, 1) else (h, k, 0).

(** [kh_key(h, k)] and [kh_val(h, k)] as rvalues. *)
Definition kh_key {V} (h : t V) (k : Z) : res string :=
  e <- Arr.rd h k ;; Ret (fst e).
Definition kh_val {V} (h : t V) (k : Z) : res V :=
  e <- Arr.rd h k ;; Ret (snd e).

(** [kh_val(h, k) = v]. *)
Definition set_val {V} (h : t V) (k : Z) (v : V) : res (t V) :=
  e <- Arr.rd h k ;; Arr.wr h k (fst e, v).

(** [kh_clear(h)]: every bucket is emptied. *)
Definition kh_clear {V} (h : t V) : t V := [].

(** The keys, in bucket order. *)
Definition keys {V} (h : t V) : list string := map fst h.

End KHash.

(** ** Object pools ([jmemory.h]) *)

(** Modelled from the spec: [SZ_POOL_INIT] of [jmemory.h], which is not part
    of the sources at hand.  Section 4.1: a pool hands out its elements in
    order ([pool_l] of them are in use); [reset] marks all elements
    available again without deallocating them and invokes the per-kind
    clear callback exactly once per reuse cycle, that is on the elements
    handed out since the previous reset. *)
Record sz_pool_t (A : Type) := { pool_a : list A; pool_l : Z }.

(** Modelled from the spec: [sz_pool_reset] of [jmemory.h], as described
    above; [clear] is the reset callback given to [SZ_POOL_INIT]. *)
Definition sz_pool_reset {A} (clear : A -> A) (p : sz_pool_t A) : sz_pool_t A :=
  {| pool_a := map clear (firstn (Z.to_nat (pool_l p)) (pool_a p))
               ++ skipn (Z.to_nat (pool_l p)) (pool_a p);
     pool_l := 0 |}.

(** One read of one UMI group. *)
Record csp_umi_unit_t := { uu_base : Z; uu_qual : Z }.

(** [csp_umi_unit_reset(p)] expands to nothing. *)
Definition csp_umi_unit_reset (u : csp_umi_unit_t) : csp_umi_unit_t := u.

(** The reads of one UMI group: a vector of units of the pool [pu],
    designated by their position in it. *)
Definition csp_list_uu_t : Type := kvec Z.
Definition csp_list_uu_reset (v : csp_list_uu_t) : csp_list_uu_t := kv_reset v.

(** [csp_pool_str_reset(s)] is [free( *s )]: the string is gone. *)
Definition csp_pool_str_reset (s : option string) : option string := None.

Definition csp_pool_uu_t : Type := sz_pool_t csp_umi_unit_t.
Definition csp_pool_ul_t : Type := sz_pool_t csp_list_uu_t.
Definition csp_pool_ps_t : Type := sz_pool_t (option string).
Definition csp_pool_uu_reset : csp_pool_uu_t -> csp_pool_uu_t :=
  sz_pool_reset csp_umi_unit_reset.
Definition csp_pool_ul_reset : csp_pool_ul_t -> csp_pool_ul_t :=
  sz_pool_reset csp_list_uu_reset.
Definition csp_pool_ps_reset : csp_pool_ps_t -> csp_pool_ps_t :=
  sz_pool_reset csp_pool_str_reset.

(** ** Pileup of one sample group ([csp_plp_t]) *)

(** UMI groups: UMI name to a list of the pool [pl], designated by its
    position in it. *)
Definition csp_map_ug_t : Type := KHash.t Z.

Record csp_plp_t := {
  plp_bc : list Z;              (* size_t bc[5] *)
  plp_tc : Z;
  plp_ad : Z;
  plp_dp : Z;
  plp_oth : Z;
  plp_qu : list (kvec Z);       (* csp_list_qu_t qu[5] *)
  plp_qmat : list (list R);     (* double qmat[5][4] *)
  plp_gl : list double;         (* double gl[5] *)
  plp_ngl : Z;
  plp_hug : option csp_map_ug_t
}.

(** [csp_plp_reset]; [gl] is left as it is. *)
Definition csp_plp_reset (p : option csp_plp_t) : option csp_plp_t :=
  match p with
  | Some p =>
      Some {| plp_bc := repeat 0 5;
              plp_tc := 0; plp_ad := 0; plp_dp := 0; plp_oth := 0;
              plp_qu := map (@kv_reset Z) (plp_qu p);
              plp_qmat := repeat (repeat 0%R 4) 5;
              plp_gl := plp_gl p;
              plp_ngl := 0;
              plp_hug := option_map (@KHash.kh_clear Z) (plp_hug p) |}
  | None => None
  end.

(** ** Pileup of all sample groups ([csp_mplp_t]) *)

(** Sample-group name to the pileup of the group (a pointer, NULL until the
    caller allocates it). *)
Definition csp_map_sg_t : Type := KHash.t (option csp_plp_t).

(** [csp_map_sg_reset_val(h)]: [csp_plp_reset] on the value of every live
    bucket. *)
Definition csp_map_sg_reset_val (h : csp_map_sg_t) : csp_map_sg_t :=
  map (fun e => (fst e, csp_plp_reset (snd e))) h.

Record csp_mplp_t := {
  ref_idx : Z; alt_idx : Z; inf_rid : Z; inf_aid : Z;
  mplp_bc : list Z;             (* size_t bc[5] *)
  mplp_tc : Z; mplp_ad : Z; mplp_dp : Z; mplp_oth : Z;
  nr_ad : Z; nr_dp : Z; nr_oth : Z;
  hsg : option csp_map_sg_t;
  hsg_iter : option (list Z);
  nsg : Z;
  pu : option csp_pool_uu_t;
  pl : option csp_pool_ul_t;
  su : option csp_pool_ps_t;
  qvec : list R                 (* double qvec[4] *)
}.

(** [csp_mplp_init]: a zeroed structure ([calloc]). *)
Definition csp_mplp_init : csp_mplp_t :=
  {| ref_idx := 0; alt_idx := 0; inf_rid := 0; inf_aid := 0;
     mplp_bc := repeat 0 5;
     mplp_tc := 0; mplp_ad := 0; mplp_dp := 0; mplp_oth := 0;
     nr_ad := 0; nr_dp := 0; nr_oth := 0;
     hsg := None; hsg_iter := None; nsg := 0;
     pu := None; pl := None; su := None;
     qvec := repeat 0%R 4 |}.

Definition csp_mplp_reset (p : option csp_mplp_t) : option csp_mplp_t :=
  match p with
  | Some p =>
      Some {| ref_idx := ref_idx p; alt_idx := alt_idx p;
              inf_rid := inf_rid p; inf_aid := inf_aid p;
              mplp_bc := repeat 0 5;
              mplp_tc := 0; mplp_ad := 0; mplp_dp := 0; mplp_oth := 0;
              nr_ad := 0; nr_dp := 0; nr_oth := 0;
              hsg := option_map csp_map_sg_reset_val (hsg p);
              hsg_iter := hsg_iter p;
              nsg := nsg p;
              pu := option_map csp_pool_uu_reset (pu p);
              pl := option_map csp_pool_ul_reset (pl p);
              su := option_map csp_pool_ps_reset (su p);
              qvec := repeat 0%R 4 |}
  | None => None
  end.

(** The fields of an aggregator that a reset must leave alone: the four
    allele indices and the sample-group mapping (names bucket by bucket,
    [hsg_iter], [nsg]). *)
Definition same_frame (m m' : csp_mplp_t) : Prop :=
  ref_idx m' = ref_idx m /\ alt_idx m' = alt_idx m /\
  inf_rid m' = inf_rid m /\ inf_aid m' = inf_aid m /\
  option_map (@KHash.keys _) (hsg m') = option_map (@KHash.keys _) (hsg m) /\
  hsg_iter m' = hsg_iter m /\ nsg m' = nsg m.

(** A cleared per-sample pileup: no count, no quality recorded, a zero
    quality matrix, no likelihood in use and no UMI group. *)
Definition plp_cleared (p : csp_plp_t) : Prop :=
  plp_bc p = [0; 0; 0; 0; 0] /\
  plp_tc p = 0 /\ plp_ad p = 0 /\ plp_dp p = 0 /\ plp_oth p = 0 /\
  Forall (fun v => kv_n v = 0) (plp_qu p) /\
  plp_qmat p = repeat (repeat 0%R 4) 5 /\
  plp_ngl p = 0 /\
  (forall h, plp_hug p = Some h -> KHash.kh_size h = 0).

(** What [csp_plp_reset] leaves of a pileup [p] in the cleared [p']: the
    quality lists keep their allocated storage, the likelihood slots keep
    their values (none is in use), and a UMI table is there if there was
    one. *)
Definition plp_kept (p p' : csp_plp_t) : Prop :=
  Forall2 (fun v v' => kv_m v' = kv_m v /\ kv_a v' = kv_a v)
          (plp_qu p) (plp_qu p') /\
  plp_gl p' = plp_gl p /\
  (plp_hug p' = None <-> plp_hug p = None).

(** The per-sample pileups [h'] are those of [h], cleared: bucket by bucket
    a NULL pointer is still NULL, and a pileup is cleared. *)
Definition sg_cleared (h h' : csp_map_sg_t) : Prop :=
  Forall2 (fun e e' =>
             match snd e, snd e' with
             | None, None => True
             | Some p, Some p' => plp_cleared p' /\ plp_kept p p'
             | _, _ => False
             end) h h'.

(** A cleared pool: no element is in use, none was deallocated, and [used]
    holds of the elements that were in use. *)
Definition pool_cleared {A} (used : A -> Prop) (p p' : sz_pool_t A) : Prop :=
  pool_l p' = 0 /\
  List.length (pool_a p') = List.length (pool_a p) /\
  Forall used (firstn (Z.to_nat (pool_l p)) (pool_a p')).

(** [R] between two pointers that are both NULL or both not. *)
Definition opt_rel {A} (R : A -> A -> Prop) (o o' : option A) : Prop :=
  match o, o' with
  | None, None => True
  | Some x, Some x' => R x x'
  | _, _ => False
  end.

(** The fields that a reset clears: the site-level counters, every
    per-sample pileup, the three pools (a UMI list that was in use is
    emptied, a UMI string that was in use is freed) and [qvec]. *)
Definition site_cleared (m m' : csp_mplp_t) : Prop :=
  mplp_bc m' = [0; 0; 0; 0; 0] /\
  mplp_tc m' = 0 /\ mplp_ad m' = 0 /\ mplp_dp m' = 0 /\ mplp_oth m' = 0 /\
  nr_ad m' = 0 /\ nr_dp m' = 0 /\ nr_oth m' = 0 /\
  opt_rel sg_cleared (hsg m) (hsg m') /\
  opt_rel (pool_cleared (fun _ => True)) (pu m) (pu m') /\
  opt_rel (pool_cleared (fun v => kv_n v = 0)) (pl m) (pl m') /\
  opt_rel (pool_cleared (fun s => s = None)) (su m) (su m') /\
  qvec m' = [0; 0; 0; 0]%R.

(** *** Sample-group names ([csp_mplp_set_sg]) *)

(** How the first loop of [csp_mplp_set_sg] ends. *)
Inductive put_names_result :=
| PutDone (h : csp_map_sg_t)      (* every name took a new bucket *)
| PutRepeated                     (* [r <= 0]: [csp_mplp_destroy(p); return -1] *)
| PutNull (h : csp_map_sg_t).     (* [s[i] == NULL]: [return -1] *)

Fixpoint put_names (h : csp_map_sg_t) (s : list (option string))
  : res put_names_result :=
  match s with
  | [] => Ret (PutDone h)
  | None :: _ => Ret (PutNull h)
  | Some name :: rest =>
      let '(h, k, r) := KHash.kh_put h name None in
      if r <=? 0 then Ret PutRepeated
      else h <- KHash.set_val h k None ;; put_names h rest
  end.

(** How the second loop ends; [it] is the array [hsg_iter]. *)
Inductive get_iters_result :=
| GetDone (it : list Z)
| GetMissing (it : list Z).       (* [k == kh_end]: [return -1] *)

Fixpoint get_iters (h : csp_map_sg_t) (s : list (option string)) (i : Z)
         (it : list Z) : res get_iters_result :=
  match s with
  | [] => Ret (GetDone it)
  | name :: rest =>
      name <- Arr.deref name ;;
      let k := KHash.kh_get h name in
      if k =? KHash.kh_end h then Ret (GetMissing it)
      else it <- Arr.wr it i k ;; get_iters h rest (i + 1) it
  end.

Definition with_sg (p : csp_mplp_t) (h : csp_map_sg_t) (it : list Z) (n : Z)
  : csp_mplp_t :=
  {| ref_idx := ref_idx p; alt_idx := alt_idx p;
     inf_rid := inf_rid p; inf_aid := inf_aid p;
     mplp_bc := mplp_bc p;
     mplp_tc := mplp_tc p; mplp_ad := mplp_ad p; mplp_dp := mplp_dp p;
     mplp_oth := mplp_oth p;
     nr_ad := nr_ad p; nr_dp := nr_dp p; nr_oth := nr_oth p;
     hsg := Some h; hsg_iter := Some it; nsg := n;
     pu := pu p; pl := pl p; su := su p; qvec := qvec p |}.

(** [csp_mplp_set_sg(p, s, n)]: the array [s] and its length [n] are one
    list.  The result is the return value and the aggregator left behind
    [p] ([None] once it has been destroyed). *)
Definition csp_mplp_set_sg (p : option csp_mplp_t)
           (s : option (list (option string)))
  : res (Z * option csp_mplp_t) :=
  match p, s with
  | Some p, Some s =>
      let n := Arr.len s in
      if n =? 0 then Ret (-1, Some p)
      else
        let h := match hsg p with Some h => h | None => KHash.kh_init end in
        let it := match hsg_iter p with
                  | Some it => it
                  | None => repeat 0 (Z.to_nat n)
                  end in
        r1 <- put_names h s ;;
        match r1 with
        | PutRepeated => Ret (-1, None)
        | PutNull h => Ret (-1, Some (with_sg p h it (nsg p)))
        | PutDone h =>
            r2 <- get_iters h s 0 it ;;
            match r2 with
            | GetMissing it => Ret (-1, Some (with_sg p h it (nsg p)))
            | GetDone it => Ret (0, Some (with_sg p h it n))
            end
        end
  | _, _ => Ret (-1, p)
  end.

(** The buckets that [csp_mplp_set_sg] adds for a list of names. *)
Definition sg_entries (names : list string) : csp_map_sg_t :=
  map (fun x => (x, @None csp_plp_t)) names.

(** Two positions of the list hold the same name. *)
Definition repeats_a_name (s : list (option string)) : Prop :=
  exists (i j : nat) (name : string),
    (i < j)%nat /\ nth_error s i = Some (Some name)
    /\ nth_error s j = Some (Some name).

(** *** Sparse-matrix output *)

(** The three buffers [ks_ad], [ks_dp], [ks_oth]. *)
Record mtx_out := { ks_ad : string; ks_dp : string; ks_oth : string }.

(** [csp_map_sg_val(mplp->hsg, mplp->hsg_iter[i])], dereferenced. *)
Definition sg_plp (mplp : csp_mplp_t) (i : Z) : res csp_plp_t :=
  it <- Arr.deref (hsg_iter mplp) ;;
  k <- Arr.rd it i ;;
  h <- Arr.deref (hsg mplp) ;;
  plp <- KHash.kh_val h k ;;
  Arr.deref plp.

(** ["%ld\t%d\t%ld\n"] and ["%d\t%ld\n"]. *)
Definition mtx_line (idx i v : Z) : string :=
  fmt_ld idx +++ tab +++ fmt_d i +++ tab +++ fmt_ld v +++ nl.
Definition mtx_line_tmp (i v : Z) : string :=
  fmt_d i +++ tab +++ fmt_ld v +++ nl.

(** [if (v) ksprintf(ks, ...)] *)
Definition put_if (v : Z) (ks line : string) : string :=
  if v =? 0 then ks else ks +++ line.

Definition str_mtx_body (mplp : csp_mplp_t) (idx : Z) (i : Z) (o : mtx_out)
  : res mtx_out :=
  plp <- sg_plp mplp i ;;
  Ret {| ks_ad := put_if (plp_ad plp) (ks_ad o) (mtx_line idx i (plp_ad plp));
         ks_dp := put_if (plp_dp plp) (ks_dp o) (mtx_line idx i (plp_dp plp));
         ks_oth := put_if (plp_oth plp) (ks_oth o)
                          (mtx_line idx i (plp_oth plp)) |}.

(** [csp_mplp_str_mtx]: [for (i = 1; i <= mplp->nsg; i++)]. *)
Definition csp_mplp_str_mtx (mplp : csp_mplp_t) (o : mtx_out) (idx : Z)
  : res (Z * mtx_out) :=
  o <- for_range (Z.to_nat (nsg mplp)) 1 (str_mtx_body mplp idx) o ;;
  Ret (0, o).

Definition str_mtx_tmp_body (mplp : csp_mplp_t) (i : Z) (o : mtx_out)
  : res mtx_out :=
  plp <- sg_plp mplp i ;;
  Ret {| ks_ad := put_if (plp_ad plp) (ks_ad o) (mtx_line_tmp i (plp_ad plp));
         ks_dp := put_if (plp_dp plp) (ks_dp o) (mtx_line_tmp i (plp_dp plp));
         ks_oth := put_if (plp_oth plp) (ks_oth o)
                          (mtx_line_tmp i (plp_oth plp)) |}.

Definition csp_mplp_str_mtx_tmp (mplp : csp_mplp_t) (o : mtx_out)
  : res (Z * mtx_out) :=
  o <- for_range (Z.to_nat (nsg mplp)) 1 (str_mtx_tmp_body mplp) o ;;
  Ret (0, {| ks_ad := ks_ad o +++ nl; ks_dp := ks_dp o +++ nl;
             ks_oth := ks_oth o +++ nl |}).

(** Modelled from the spec: [jfile_t] of [jfile.h], which is not part of the
    sources at hand; of a file only the flag [is_tmp] and the text written
    so far matter here ([jf_printf] and [jf_putc] append). *)
Record jfile_t := { is_tmp : bool; jf_text : string }.

(** Modelled from the spec: [jf_printf] and [jf_putc] of [jfile.h]. *)
Definition jf_append (f : jfile_t) (s : string) : jfile_t :=
  {| is_tmp := is_tmp f; jf_text := jf_text f +++ s |}.

(** [if (v) fs->is_tmp ? jf_printf(fs, "%d\t%ld\n", ...)
    : jf_printf(fs, "%ld\t%d\t%ld\n", ...)] *)
Definition to_mtx_put (f : jfile_t) (idx i v : Z) : jfile_t :=
  if v =? 0 then f
  else if is_tmp f then jf_append f (mtx_line_tmp i v)
       else jf_append f (mtx_line idx i v).

(** [if (fs->is_tmp) jf_putc('\n', fs)] *)
Definition to_mtx_end (f : jfile_t) : jfile_t :=
  if is_tmp f then jf_append f nl else f.

(** Body of the loop of [csp_mplp_to_mtx], which reads [hsg_iter[i - 1]]. *)
Definition to_mtx_body (mplp : csp_mplp_t) (idx : Z) (i : Z)
           (fs : jfile_t * jfile_t * jfile_t)
  : res (jfile_t * jfile_t * jfile_t) :=
  let '(fs_ad, fs_dp, fs_oth) := fs in
  plp <- sg_plp mplp (i - 1) ;;
  Ret (to_mtx_put fs_ad idx i (plp_ad plp),
       to_mtx_put fs_dp idx i (plp_dp plp),
       to_mtx_put fs_oth idx i (plp_oth plp)).

Definition csp_mplp_to_mtx (mplp : csp_mplp_t)
           (fs_ad fs_dp fs_oth : jfile_t) (idx : Z)
  : res (Z * (jfile_t * jfile_t * jfile_t)) :=
  '(fs_ad, fs_dp, fs_oth) <-
    for_range (Z.to_nat (nsg mplp)) 1 (to_mtx_body mplp idx)
              (fs_ad, fs_dp, fs_oth) ;;
  Ret (0, (to_mtx_end fs_ad, to_mtx_end fs_dp, to_mtx_end fs_oth)).

(** *** A site with two sample groups

    Sample group ["s1"] has AD 3, DP 5, OTH 0 and ["s2"] has AD 0, DP 7,
    OTH 1; the mapping is the one [csp_mplp_set_sg] builds for these
    names. *)

Definition plp_counts (ad dp oth : Z) : csp_plp_t :=
  {| plp_bc := [dp - ad; 0; ad; oth; 0];
     plp_tc := dp + oth; plp_ad := ad; plp_dp := dp; plp_oth := oth;
     plp_qu := repeat {| kv_n := 0; kv_m := 0; kv_a := [] |} 5;
     plp_qmat := repeat (repeat 0%R 4) 5;
     plp_gl := repeat d_zero 5;
     plp_ngl := 3;
     plp_hug := None |}.

Definition mplp_two_groups : csp_mplp_t :=
  with_sg csp_mplp_init
          [("s1", Some (plp_counts 3 5 0)); ("s2", Some (plp_counts 0 7 1))]
          [0; 1] 2.

Definition mtx_empty : mtx_out := {| ks_ad := ""; ks_dp := ""; ks_oth := "" |}.
Definition jf_final : jfile_t := {| is_tmp := false; jf_text := "" |}.

(** ** VCF output ([csp_plp_str_vcf]) *)

(** Modelled from the spec: [get_idx_of_max] of [jnumeric.h], which is not
    part of the sources at hand.  Section 4.5: the arg-max over the first
    [n] values, "ties resolved by first-encountered, i.e., lowest class
    index": a later value replaces the maximum only when strictly larger
    ([a[i] > max]). *)
Definition idx_of_max_step (a : list double) (i : Z) (s : Z * double)
  : res (Z * double) :=
  let '(j, max) := s in
  x <- Arr.rd a i ;;
  if d_gt x max then Ret (i, x) else Ret (j, max).

(** Modelled from the spec: [get_idx_of_max(cu_d, a, n)] of [jnumeric.h],
    the loop of the step above over [a[1 .. n - 1]], starting from
    [a[0]]. *)
Definition get_idx_of_max (a : list double) (n : Z) : res Z :=
  a0 <- Arr.rd a 0 ;;
  '(j, _) <- for_range (Z.to_nat (n - 1)) 1 (idx_of_max_step a) (0, a0) ;;
  Ret j.

(** The strings of [l] with [c] between every two of them. *)
Fixpoint join_with (c : string) (l : list string) : string :=
  match l with
  | [] => ""
  | [x] => x
  | x :: l' => x +++ c +++ join_with c l'
  end.

(** Modelled from the spec: [join_arr_to_str] of [jnumeric.h], which is not
    part of the sources at hand.  Section 4.5 ("comma-joined"): the first
    [n] elements of [a], each printed with the format, separated by [c],
    are appended to [s]; the result is the number of elements printed. *)
Definition join_arr_to_str {A} (fmt : A -> string) (a : list A) (n : Z)
           (c : string) (s : string) : res (Z * string) :=
  if n <=? Arr.len a
  then Ret (n, s +++ join_with c (map fmt (firstn (Z.to_nat n) a)))
  else UB.

(** [char *gt[] = {"0/0", "1/0", "1/1"}] *)
Definition gt : list string := ["0/0"; "1/0"; "1/1"].

(** Body of [for (i = 0; i < p->ngl; i++) gl[i] = p->gl[i] * tmp;] *)
Definition scale_step (p_gl : list double) (tmp : double) (i : Z)
           (gl : list double) : res (list double) :=
  x <- Arr.rd p_gl i ;; Arr.wr gl i (d_mul x tmp).

(** [double tmp = -10 / log(10);]: the [int] -10 converted and divided,
    [-0x1.15f2ced384f28p+2]. *)
Definition vcf_tmp : double := d_div (d_lit (-10) 0) log_10.

(** [csp_plp_str_vcf(p, s)]: the return value and the new contents of
    [s].  The local [double gl[5]] starts with whatever the stack holds;
    only the entries that the loop has written are printed. *)
Definition csp_plp_str_vcf (p : csp_plp_t) (s : string) : res (Z * string) :=
  if plp_tc p <=? 0 then Ret (0, s +++ ".:.:.:.:.:.")
  else
    let tmp := vcf_tmp in
    m <- get_idx_of_max (plp_gl p) 3 ;;
    g <- Arr.rd gt m ;;
    let s := s +++ g in
    let s := s +++ (":" +++ fmt_ld (plp_ad p) +++ ":" +++ fmt_ld (plp_dp p)
                    +++ ":" +++ fmt_ld (plp_oth p) +++ ":") in
    gl <- for_range (Z.to_nat (plp_ngl p)) 0 (scale_step (plp_gl p) tmp)
                    (repeat d_zero 5) ;;
    '(k, s) <- join_arr_to_str fmt_0f gl (plp_ngl p) "," s ;;
    if k <? plp_ngl p then Ret (-1, s)
    else
      let s := s +++ ":" in
      '(k, s) <- join_arr_to_str fmt_ld (plp_bc p) 5 "," s ;;
      if k <? 5 then Ret (-1, s) else Ret (0, s).

(** *** The VCF field as the specification words it *)

(** [m] is the first arg-max of the first three likelihoods: [gl[m]] is
    less than none of the three, and those before [m] are less than
    [gl[m]], in the order of IEEE 754. *)
Definition first_argmax3 (gl : list double) (m : Z) : Prop :=
  0 <= m < 3 /\
  (forall j, 0 <= j < 3 ->
             SFltb (nth (Z.to_nat m) gl d_zero) (nth (Z.to_nat j) gl d_zero)
             = false) /\
  (forall j, 0 <= j < m ->
             SFltb (nth (Z.to_nat j) gl d_zero) (nth (Z.to_nat m) gl d_zero)
             = true).

(** The genotype of likelihood class [m]. *)
Definition gt_of (m : Z) : string :=
  if m =? 0 then "0/0" else if m =? 1 then "1/0" else "1/1".

Definition missing_field : string := ".:.:.:.:.:.".

(** [GT:AD:DP:OTH:PL:AD_all] for genotype class [m] and the PL entries
    [pls]. *)
Definition vcf_field (p : csp_plp_t) (m : Z) (pls : list string) : string :=
  gt_of m +++ ":" +++ fmt_ld (plp_ad p) +++ ":" +++ fmt_ld (plp_dp p)
  +++ ":" +++ fmt_ld (plp_oth p) +++ ":"
  +++ join_with "," pls
  +++ ":" +++ join_with "," (map fmt_ld (plp_bc p)).

(** A pileup with 10 reads and the likelihoods -3.5, -1.25, -20, -0.0625
    and 0. *)
Definition plp_likelihoods : csp_plp_t :=
  {| plp_bc := [8; 0; 2; 0; 0];
     plp_tc := 10; plp_ad := 2; plp_dp := 10; plp_oth := 0;
     plp_qu := repeat {| kv_n := 0; kv_m := 0; kv_a := [] |} 5;
     plp_qmat := repeat (repeat 0%R 4) 5;
     plp_gl := [d_lit (-7) (-1); d_lit (-5) (-2); d_lit (-20) 0;
                d_lit (-1) (-4); d_zero];
     plp_ngl := 5;
     plp_hug := None |}.

(** A pileup with 10 reads and the likelihoods [-log(10) / 4], about
    -0.5756. *)
Definition plp_half_way : csp_plp_t :=
  {| plp_bc := [8; 0; 2; 0; 0];
     plp_tc := 10; plp_ad := 2; plp_dp := 10; plp_oth := 0;
     plp_qu := repeat {| kv_n := 0; kv_m := 0; kv_a := [] |} 5;
     plp_qmat := repeat (repeat 0%R 4) 5;
     plp_gl := repeat (S754_finite true 5184960683398422 (-53)) 5;
     plp_ngl := 3;
     plp_hug := None |}.

(** [k] squarings of the fixed-point number [y / 2^P], each rounded
    down. *)
Fixpoint square_down (P : Z) (k : nat) (y : Z) : Z :=
  match k with
  | O => y
  | S k' => square_down P k' (y * y / 2 ^ P)
  end.

(** The place of a double that is not NaN in the order of [>]: the sign
    class, then exponent and mantissa, which order the doubles of one
    sign. *)
Definition d_key (x : double) : Z * Z * Z :=
  match x with
  | S754_zero _ | S754_nan => (0, 0, 0)
  | S754_infinity s => (if s then -2 else 2, 0, 0)
  | S754_finite s m e =>
      if s then (-1, - e, - Zpos m) else (1, e, Zpos m)
  end.

Definition key_lt (a b : Z * Z * Z) : Prop :=
  let '(a1, a2, a3) := a in
  let '(b1, b2, b3) := b in
  a1 < b1 \/ (a1 = b1 /\ (a2 < b2 \/ (a2 = b2 /\ a3 < b3))).

(** [n] is an integer nearest to [x]. *)
Definition is_round (x : R) (n : Z) : Prop := (Rabs (IZR n - x) <= 1 / 2)%R.

(** The PL entries as [round(-10 L / ln 10)] of the likelihoods, written
    as integers. *)
Definition round_PL (gl : list double) (pls : list string) : Prop :=
  exists ns, Forall2 (fun L n => is_round (-10 * d_R L / ln 10) n) gl ns /\
             pls = map fmt_d ns.

(** [n] is the integer nearest to [x], the even one of two that are
    equally near. *)
Definition nearest_even (x : R) (n : Z) : Prop :=
  (Rabs (IZR n - x) < 1 / 2)%R \/
  ((Rabs (IZR n - x) = 1 / 2)%R /\ Z.even n = true).

(** The value of [-10 / log(10)] in double arithmetic,
    [-0x1.15f2ced384f28p+2], that is -4.3429448190325175. *)
Definition PL_scale : double := S754_finite true 4889721167171368 (-50).

(** The PL entry of a likelihood [L] that is not NaN: the binary64
    product of [L] and [PL_scale] with its sign, a minus sign unless the
    sign bit of [L] is set, then its magnitude rounded to the nearest
    integer, or [inf] for a product beyond the range of a double. *)
Definition PL_entry (L : double) (txt : string) : Prop :=
  match SFmul 53 1024 L PL_scale with
  | S754_nan => False
  | S754_infinity _ => txt = (if d_sign L then "" else "-") +++ "inf"
  | x => exists n, nearest_even (Rabs (d_R x)) n /\
                   txt = (if d_sign L then "" else "-") +++ fmt_d n
  end.

(** The first [ngl] likelihoods and the first three are numbers. *)
Definition gl_numbers (p : csp_plp_t) : Prop :=
  Forall (fun L => is_nan L = false) (firstn 3 (plp_gl p)) /\
  Forall (fun L => is_nan L = false)
         (firstn (Z.to_nat (plp_ngl p)) (plp_gl p)).

(** ** SNP list ([snp.h], [snp.c]) *)

(** [ref] and [alt] are [int8_t]; 0 means that the input gave none. *)
Record csp_snp_t := { chr : string; pos : Z; ref : Z; alt : Z }.

Definition csp_snplist_t : Type := list csp_snp_t.

(** Modelled from htslib's [vcf.h]: a record as [bcf_read1] and
    [bcf_unpack] present it, with the contig id, the 0-based position and
    the allele strings [d.allele[0 .. n_allele - 1]]. *)
Record bcf1_t := { rid : Z; bcf_pos : Z; allele : list string }.

Definition n_allele (rec : bcf1_t) : Z := Arr.len (allele rec).

(** The contig names of the header, by id. *)
Definition bcf_hdr_t : Type := list string.

(** [bcf_hdr_id2name]: NULL for an id outside the header. *)
Definition bcf_hdr_id2name (hdr : bcf_hdr_t) (rid : Z) : option string :=
  if 0 <=? rid then nth_error hdr (Z.to_nat rid) else None.

(** What [get_snplist_from_vcf] reads from the file: the header (NULL when
    [bcf_hdr_read] fails), the records that [bcf_read1] delivers with a
    result [>= 0], and the negative result that ends the loop (-1 at the
    end of the file). *)
Record vcf_file := {
  vcf_hdr : option bcf_hdr_t;
  vcf_recs : list bcf1_t;
  vcf_end : Z
}.

Definition strlen (s : string) : Z := Z.of_nat (String.length s).

(** [s[0]] of a [char *], as the [int8_t] it is assigned to. *)
Definition first_char (s : string) : Z :=
  match s with
  | EmptyString => 0
  | String c _ =>
      let n := Z.of_N (N_of_ascii c) in if n <? 128 then n else n - 256
  end.

(** The part of a turn that deals with the alternative allele. *)
Definition snp_alt_of_record (rec : bcf1_t) (ip : csp_snp_t)
  : res (option csp_snp_t) :=
  if n_allele rec =? 2 then
    a1 <- Arr.rd (allele rec) 1 ;;
    let l := strlen a1 in
    if l =? 1 then
      Ret (Some {| chr := chr ip; pos := pos ip; ref := ref ip;
                   alt := first_char a1 |})
    else if 1 <? l then Ret None
    else Ret (Some ip)
  else if 2 <? n_allele rec then Ret None
  else Ret (Some ip).

(** One turn of the loop on a record: the SNP to push, or [None] when the
    record is skipped ([csp_snp_destroy(ip); continue;]). *)
Definition snp_of_record (hdr : bcf_hdr_t) (rec : bcf1_t)
  : res (option csp_snp_t) :=
  match bcf_hdr_id2name hdr (rid rec) with
  | None => Ret None
  | Some name =>
      let ip := {| chr := name; pos := bcf_pos rec; ref := 0; alt := 0 |} in
      if 0 <? n_allele rec then
        a0 <- Arr.rd (allele rec) 0 ;;
        let l := strlen a0 in
        if l =? 1 then
          snp_alt_of_record rec {| chr := chr ip; pos := pos ip;
                                   ref := first_char a0; alt := alt ip |}
        else if 1 <? l then Ret None
        else snp_alt_of_record rec ip
      else Ret (Some ip)
  end.

(** The loop over the records: [csp_snplist_push( *pl, ip); n++;] for the
    records that are kept. *)
Fixpoint snp_loop (hdr : bcf_hdr_t) (recs : list bcf1_t)
         (pl : csp_snplist_t) (n : Z) : res (csp_snplist_t * Z) :=
  match recs with
  | [] => Ret (pl, n)
  | rec :: rest =>
      o <- snp_of_record hdr rec ;;
      match o with
      | Some ip => snp_loop hdr rest (pl ++ [ip]) (n + 1)
      | None => snp_loop hdr rest pl n
      end
  end.

(** [get_snplist_from_vcf(fn, pl, ret, print_skip)]: the file is [None]
    when [fn] is NULL or cannot be opened.  The result is the returned
    count, the list behind [pl] and the value stored through [ret].  The
    warnings that [print_skip] enables go to [stderr], which is not part
    of the state. *)
Definition get_snplist_from_vcf (fn : option vcf_file)
           (pl : option csp_snplist_t) (print_skip : Z)
  : res (Z * option csp_snplist_t * Z) :=
  match fn, pl with
  | Some f, Some l =>
      match vcf_hdr f with
      | None => Ret (0, Some l, -1)
      | Some hdr =>
          '(l, n) <- snp_loop hdr (vcf_recs f) l 0 ;;
          if vcf_end f =? -1 then Ret (n, Some l, 0)
          else Ret (n, Some l, -1)
      end
  | _, _ => Ret (0, pl, -1)
  end.

(** *** Acceptance as the specification words it *)

(** The ref and alt strings of a record; an absent one has length 0. *)
Definition ref_of (rec : bcf1_t) : string := nth 0 (allele rec) "".
Definition alt_of (rec : bcf1_t) : string := nth 1 (allele rec) "".

Definition resolves (hdr : bcf_hdr_t) (rec : bcf1_t) : bool :=
  match bcf_hdr_id2name hdr (rid rec) with Some _ => true | None => false end.

(** The chromosome resolves, ref and alt have length at most 1 and there
    are at most two alleles. *)
Definition accepted (hdr : bcf_hdr_t) (rec : bcf1_t) : bool :=
  resolves hdr rec && (strlen (ref_of rec) <=? 1)
  && (strlen (alt_of rec) <=? 1) && (n_allele rec <=? 2).

(** The SNP stored for an accepted record; a base of length 0 is stored
    as 0. *)
Definition stored_snp (hdr : bcf_hdr_t) (rec : bcf1_t) : csp_snp_t :=
  {| chr := match bcf_hdr_id2name hdr (rid rec) with
            | Some name => name
            | None => ""
            end;
     pos := bcf_pos rec;
     ref := first_char (ref_of rec);
     alt := first_char (alt_of rec) |}.

(** *** A small variant file

    Five records: A>G on chr1, A>GT on chr1 (alt of length 2), a record
    whose contig id is not in the header, a record with three alleles on
    chr2, and a record without alleles on chr2. *)
Definition vcf_five_records : vcf_file :=
  {| vcf_hdr := Some ["chr1"; "chr2"];
     vcf_recs := [ {| rid := 0; bcf_pos := 99; allele := ["A"; "G"] |};
                   {| rid := 0; bcf_pos := 200; allele := ["A"; "GT"] |};
                   {| rid := 5; bcf_pos := 7; allele := ["C"; "T"] |};
                   {| rid := 1; bcf_pos := 10; allele := ["C"; "T"; "G"] |};
                   {| rid := 1; bcf_pos := 41; allele := [] |} ];
     vcf_end := -1 |}.

(** ** Further contracts of the genotype likelihood model *)

(** The likelihood classes as they pair up when ref and alt trade places:
    hom-ref with hom-alt, the two doublet classes with each other. *)
Definition mirror_class (i : nat) : nat :=
  match i with
  | 0 => 2
  | 2 => 0
  | 3 => 4
  | 4 => 3
  | _ => i
  end%nat.

(** The error probability that [get_qual_vector] computes for a quality. *)
Definition err_prob (qual cap_bq min_bq : R) : R :=
  Rpower 0.1 (Geno.max2 (Geno.min2 cap_bq qual) min_bq / 10).

(** Two inputs of [qual_matrix_to_geno] that differ at most in the rows
    and counts of the bases that are neither ref nor alt. *)
Definition same_ref_alt (qm qm' : list (list R)) (bc bc' : list Z)
           (ref_idx alt_idx : Z) : Prop :=
  nth (Z.to_nat ref_idx) qm [] = nth (Z.to_nat ref_idx) qm' [] /\
  nth (Z.to_nat alt_idx) qm [] = nth (Z.to_nat alt_idx) qm' [] /\
  nth (Z.to_nat ref_idx) bc 0 = nth (Z.to_nat ref_idx) bc' 0 /\
  nth (Z.to_nat alt_idx) bc 0 = nth (Z.to_nat alt_idx) bc' 0.

(** ** VCF output of all sample groups ([csp_mplp_str_vcf]) *)

(** [csp_plp_init]: a zeroed pileup ([calloc]). *)
Definition csp_plp_init : csp_plp_t :=
  {| plp_bc := repeat 0 5;
     plp_tc := 0; plp_ad := 0; plp_dp := 0; plp_oth := 0;
     plp_qu := repeat {| kv_n := 0; kv_m := 0; kv_a := [] |} 5;
     plp_qmat := repeat (repeat 0%R 4) 5;
     plp_gl := repeat d_zero 5;
     plp_ngl := 0;
     plp_hug := None |}.

(** The loop of [csp_mplp_str_vcf], [n] turns from sample group [i] on:
    [kputc_('\t', s); if (csp_plp_str_vcf(..., s) < 0) return -1;]. *)
Fixpoint str_vcf_loop (mplp : csp_mplp_t) (n : nat) (i : Z) (s : string)
  : res (Z * string) :=
  match n with
  | O => Ret (0, s)
  | S n' =>
      let s := s +++ tab in
      plp <- sg_plp mplp i ;;
      '(r, s) <- csp_plp_str_vcf plp s ;;
      if r <? 0 then Ret (-1, s) else str_vcf_loop mplp n' (i + 1) s
  end.

Definition csp_mplp_str_vcf (mplp : csp_mplp_t) (s : string)
  : res (Z * string) :=
  str_vcf_loop mplp (Z.to_nat (nsg mplp)) 0 s.

(** *** Contracts of the formatters *)

(** The pileups of the configured sample groups, in the order of their
    names: sample group [i] (0-based) holds [plps[i]]. *)
Definition sg_ready (m : csp_mplp_t) (plps : list csp_plp_t) : Prop :=
  nsg m = Arr.len plps /\
  forall i plp, nth_error plps i = Some plp ->
                sg_plp m (Z.of_nat i) = Ret plp.

(** A pileup with its arrays at their declared sizes and a likelihood
    count that fits them. *)
Definition plp_fit (p : csp_plp_t) : Prop :=
  List.length (plp_gl p) = 5%nat /\ List.length (plp_bc p) = 5%nat /\
  0 <= plp_ngl p <= 5.

(** The text that [csp_plp_str_vcf] writes for a pileup into an empty
    buffer. *)
Definition vcf_text (p : csp_plp_t) : string :=
  match csp_plp_str_vcf p "" with
  | Ret (_, t) => t
  | UB => ""
  end.

Fixpoint concat_str (l : list string) : string :=
  match l with
  | [] => ""
  | x :: l' => x +++ concat_str l'
  end.

(** The lines of one matrix for the values of sample groups [i], [i+1],
    ...: a line for every value that is not 0. *)
Fixpoint mtx_lines (tmp : bool) (idx i : Z) (vals : list Z) : string :=
  match vals with
  | [] => ""
  | v :: rest =>
      (if v =? 0 then ""
       else if tmp then mtx_line_tmp i v else mtx_line idx i v)
      +++ mtx_lines tmp idx (i + 1) rest
  end.

(** A matrix file after the lines of a site have been written to it; a
    temporary file also gets the blank line that ends the site. *)
Definition mtx_written (f : jfile_t) (idx : Z) (vals : list Z) : jfile_t :=
  {| is_tmp := is_tmp f;
     jf_text := jf_text f +++ mtx_lines (is_tmp f) idx 1 vals
                +++ (if is_tmp f then nl else "") |}.

(** The pileup that [csp_plp_reset] leaves behind a non-NULL pointer. *)
Definition plp_after_reset (p : csp_plp_t) : csp_plp_t :=
  match csp_plp_reset (Some p) with
  | Some p' => p'
  | None => p
  end.

(** *** Contracts of [csp_mplp_set_sg] *)

(** The table and the iterator array that [csp_mplp_set_sg] works on: the
    ones of the aggregator, or fresh ones where it has none. *)
Definition sg_table (p : csp_mplp_t) : csp_map_sg_t :=
  match hsg p with Some h => h | None => KHash.kh_init end.

Definition sg_iters (p : csp_mplp_t) (n : Z) : list Z :=
  match hsg_iter p with Some it => it | None => repeat 0 (Z.to_nat n) end.

(** The iterators [0; 1; ...; n-1]. *)
Definition first_buckets (n : nat) : list Z := map Z.of_nat (seq 0 n).

(** ** Matrix tags (the [DEVELOP] part of mplp.h) *)

(** [csp_mtx_value_func_t]: a function from the aggregator and a pileup to
    a matrix value. *)
Definition csp_mtx_value_func_t : Type := csp_mplp_t -> csp_plp_t -> Z.

Definition csp_mtx_value_AD : csp_mtx_value_func_t := fun mplp plp => plp_ad plp.
Definition csp_mtx_value_DP : csp_mtx_value_func_t := fun mplp plp => plp_dp plp.
Definition csp_mtx_value_OTH : csp_mtx_value_func_t := fun mplp plp => plp_oth plp.

Definition csp_mtx_ntags : Z := 3.
Definition csp_mtx_tags : list string := ["AD"; "DP"; "OTH"].
Definition csp_mtx_value_funcs : list csp_mtx_value_func_t :=
  [csp_mtx_value_AD; csp_mtx_value_DP; csp_mtx_value_OTH].

(** [csp_get_mtx_fn]: ["cellSNP.tag.%s.mtx"]. *)
Definition csp_get_mtx_fn (tag : string) : string :=
  "cellSNP.tag." +++ tag +++ ".mtx".

(** The loop of [csp_get_mtx_idx], [n] turns from tag [i] on:
    [if (0 == strcmp(tag, csp_mtx_tags[i])) return i;], and -1 after the
    last turn. *)
Fixpoint mtx_idx_loop (tag : string) (n : nat) (i : Z) : res Z :=
  match n with
  | O => Ret (-1)
  | S n' =>
      t <- Arr.rd csp_mtx_tags i ;;
      if String.eqb tag t then Ret i else mtx_idx_loop tag n' (i + 1)
  end.

Definition csp_get_mtx_idx (tag : string) : res Z :=
  mtx_idx_loop tag (Z.to_nat csp_mtx_ntags) 0.

(** [csp_get_mtx_value_func]: [csp_mtx_value_funcs[i]], unchecked. *)
Definition csp_get_mtx_value_func (i : Z) : res csp_mtx_value_func_t :=
  Arr.rd csp_mtx_value_funcs i.

(** The count of a pileup that a tag names. *)
Definition tagged_count (tag : string) (plp : csp_plp_t) : Z :=
  if String.eqb tag "AD" then plp_ad plp
  else if String.eqb tag "DP" then plp_dp plp
  else plp_oth plp.

(** * Properties *)

(** ** Allele inference *)

Ltac five_cells bc H :=
  destruct bc as [|?a [|?b [|?c [|?d [|?e [|? ?]]]]]]; simpl in H; try discriminate H.

Ltac split_index j :=
  assert (j = 0 \/ j = 1 \/ j = 2 \/ j = 3 \/ j = 4) as ?Hj by lia;
  repeat match goal with H : _ \/ _ |- _ => destruct H end; subst j.

(** C7.  For every base-count vector of length 5, [csp_infer_allele] returns
    as [ref_idx] the lowest index of a maximal count and as [alt_idx] the
    lowest index of a maximal count among the remaining bases (strict
    comparisons, ties toward the lowest base index); on [10,10,5,0,0] it
    returns [(0,1)]. *)
Theorem csp_infer_allele_two_best (bc : list Z) (Hlen : List.length bc = 5%nat) :
  (exists r a, csp_infer_allele bc = Ret (r, a) /\ two_best bc r a) /\
  csp_infer_allele [10; 10; 5; 0; 0] = Ret (0, 1).
Proof.
  split; [|reflexivity].
  five_cells bc Hlen.
  unfold csp_infer_allele, infer_step, for_range, Arr.rd; simpl.
  repeat match goal with
         | |- context [?x <? ?y] => destruct (Z.ltb_spec x y); simpl
         | |- context [?x >? ?y] => rewrite (Z.gtb_ltb x y); destruct (Z.ltb_spec y x); simpl
         end;
    try lia;
    (do 2 eexists; split; [reflexivity|]);
    unfold two_best, cnt;
    (repeat split; try lia; intros j **; split_index j; simpl; lia).
Qed.

Lemma csp_infer_allele_two_best_witness :
  (exists r a, csp_infer_allele [3; 5; 5; 0; 1] = Ret (r, a)
               /\ two_best [3; 5; 5; 0; 1] r a) /\
  csp_infer_allele [10; 10; 5; 0; 0] = Ret (0, 1).
Proof. apply (@csp_infer_allele_two_best [3; 5; 5; 0; 1]); reflexivity. Defined.

(** ** Genotype likelihood model *)

Import Geno.

(** Decide every integer comparison in the goal, dropping the impossible
    branches. *)
Ltac zsimpl := cbn -[Z.eqb Z.leb Z.ltb Z.gtb].

Ltac zcases :=
  repeat match goal with
         | |- context [(?x =? ?y)%Z] =>
             destruct (Z.eqb_spec x y); try lia; zsimpl
         | |- context [(?x <=? ?y)%Z] =>
             destruct (Z.leb_spec x y); try lia; zsimpl
         | |- context [(?x <? ?y)%Z] =>
             destruct (Z.ltb_spec x y); try lia; zsimpl
         end.

Ltac base_or_outside r :=
  let H := fresh "H" in
  assert (r = 0 \/ r = 1 \/ r = 2 \/ r = 3 \/ r = 4 \/ (r < 0 \/ 4 < r))%Z
    as H by lia;
  destruct H as [H|[H|[H|[H|[H|H]]]]]; [subst r ..|].

Lemma rd_outside {A} (a : list A) (i : Z) :
  (i < 0 \/ Arr.len a <= i)%Z -> Arr.rd a i = UB.
Proof.
  intros H. unfold Arr.rd, Arr.len in *.
  destruct (Z.leb_spec 0 i); [|reflexivity].
  destruct (nth_error a (Z.to_nat i)) eqn:E; [|reflexivity].
  assert (Z.to_nat i < List.length a)%nat
    by (apply nth_error_Some; congruence).
  lia.
Qed.

(** C9.  The 4-entry buffer [other_idx] is written within bounds exactly
    when the number of bases that are neither ref nor alt is at most 4,
    which holds exactly when one of the two indices lies in 0..4.  With both
    indices negative all five bases are 'other' and the fifth write leaves
    the buffer; and a call on a 5-entry count vector is free of undefined
    behaviour only if both indices lie in 0..4. *)
Theorem other_idx_within_bounds_iff (ref_idx alt_idx : Z) :
  let noth := Z.of_nat (List.length (other_bases ref_idx alt_idx)) in
  ((noth <= 4)%Z <-> valid_idx ref_idx || valid_idx alt_idx = true) /\
  (is_ret (fill_other_idx ref_idx alt_idx) = true <-> (noth <= 4)%Z) /\
  ((ref_idx < 0)%Z -> (alt_idx < 0)%Z ->
   noth = 5%Z /\ fill_other_idx ref_idx alt_idx = UB /\
   forall qm bc db gl, qual_matrix_to_geno qm bc ref_idx alt_idx db gl = UB) /\
  (forall qm bc db gl,
      List.length bc = 5%nat ->
      is_ret (qual_matrix_to_geno qm bc ref_idx alt_idx db gl) = true ->
      valid_idx ref_idx = true /\ valid_idx alt_idx = true).
Proof.
  assert (Hfill : is_ret (fill_other_idx ref_idx alt_idx)
                  = valid_idx ref_idx || valid_idx alt_idx).
  { unfold fill_other_idx, for_range, other_idx_step, valid_idx.
    base_or_outside ref_idx; base_or_outside alt_idx; zsimpl;
      zcases; reflexivity. }
  assert (Hcnt : (Z.of_nat (List.length (other_bases ref_idx alt_idx)) <=? 4)%Z
                 = valid_idx ref_idx || valid_idx alt_idx).
  { unfold other_bases, valid_idx.
    base_or_outside ref_idx; base_or_outside alt_idx; zsimpl;
      zcases; reflexivity. }
  assert (Hneg : (ref_idx < 0)%Z -> (alt_idx < 0)%Z ->
                 fill_other_idx ref_idx alt_idx = UB).
  { intros Hr Ha.
    destruct (fill_other_idx ref_idx alt_idx) eqn:E; [|reflexivity].
    exfalso. revert Hfill. unfold valid_idx. zcases; try discriminate. }
  cbv zeta. split; [|split; [|split]].
  - rewrite <- Hcnt. symmetry. apply Z.leb_le.
  - rewrite Hfill, <- Hcnt. apply Z.leb_le.
  - intros Hr Ha. split; [|split].
    + unfold other_bases. zsimpl. zcases. reflexivity.
    + auto.
    + intros qm bc db gl. unfold qual_matrix_to_geno.
      rewrite Hneg by assumption. reflexivity.
  - intros qm bc db gl Hbc. unfold qual_matrix_to_geno.
    destruct (fill_other_idx ref_idx alt_idx) as [[other_idx noth]|];
      [|discriminate].
    unfold valid_idx. zsimpl.
    destruct (Z.leb_spec 0 ref_idx), (Z.leb_spec ref_idx 4),
      (Z.leb_spec 0 alt_idx), (Z.leb_spec alt_idx 4);
      zsimpl; auto;
      try (rewrite (@rd_outside _ bc ref_idx) by (unfold Arr.len; lia);
           discriminate);
      (destruct (Arr.rd bc ref_idx); zsimpl; [|discriminate]);
      rewrite (@rd_outside _ bc alt_idx) by (unfold Arr.len; lia);
      discriminate.
Qed.

Lemma other_idx_within_bounds_iff_witness :
  Z.of_nat (List.length (other_bases (-1) (-1))) = 5%Z /\
  fill_other_idx (-1) (-1) = UB /\
  forall qm bc db gl, qual_matrix_to_geno qm bc (-1) (-1) db gl = UB.
Proof.
  destruct (other_idx_within_bounds_iff (-1) (-1)) as (_ & _ & H & _).
  apply H; lia.
Defined.

(** Evaluate the control flow and the array accesses, leaving the real
    arithmetic as written. *)
Ltac rcompute :=
  cbv -[Rplus Rmult Rminus Rdiv Rinv Ropp ln IZR Q2R Rpower Rmax Rmin].

Ltac four_cells row H :=
  destruct row as [|? [|? [|? [|? [|? ?]]]]]; simpl in H; try discriminate H.

Lemma qmat_cells (qm : list (list R)) :
  qmat_shape qm ->
  exists a0 a1 a2 a3 c0 c1 c2 c3 g0 g1 g2 g3 t0 t1 t2 t3 n0 n1 n2 n3 : R,
    qm = [[a0; a1; a2; a3]; [c0; c1; c2; c3]; [g0; g1; g2; g3];
          [t0; t1; t2; t3]; [n0; n1; n2; n3]].
Proof.
  intros [Hlen Hrows].
  five_cells qm Hlen.
  repeat match goal with
         | H : Forall _ (_ :: _) |- _ => inversion_clear H
         end.
  repeat match goal with
         | H : List.length ?row = 4%nat |- _ => four_cells row H; clear H
         end.
  repeat eexists.
Qed.

(** C4.  For a 5-by-4 quality matrix, a 5-entry count vector and distinct
    indices ref_idx, alt_idx in 0..4, exactly three bases are 'other' and
    [qual_matrix_to_geno] stores the three genotype likelihoods of the
    specification in [gl[0..2]] with count 3; with the doublet flag set it
    also stores the two doublet likelihoods in [gl[3..4]] with count 5. *)
Theorem qual_matrix_to_geno_formula
        (qm : list (list R)) (bc : list Z) (ref_idx alt_idx db : Z)
        (gl : list R) :
  qmat_shape qm -> List.length bc = 5%nat -> List.length gl = 5%nat ->
  valid_idx ref_idx = true -> valid_idx alt_idx = true ->
  ref_idx <> alt_idx ->
  List.length (other_bases ref_idx alt_idx) = 3%nat /\
  qual_matrix_to_geno qm bc ref_idx alt_idx db gl =
    Ret (if (db =? 0)%Z
         then [L_hom_ref qm bc ref_idx alt_idx; L_het qm bc ref_idx alt_idx;
               L_hom_alt qm bc ref_idx alt_idx; nth 3 gl 0%R; nth 4 gl 0%R]
         else [L_hom_ref qm bc ref_idx alt_idx; L_het qm bc ref_idx alt_idx;
               L_hom_alt qm bc ref_idx alt_idx;
               L_ref_het qm bc ref_idx alt_idx;
               L_het_alt qm bc ref_idx alt_idx],
         if (db =? 0)%Z then 3%Z else 5%Z, 0%Z).
Proof.
  intros Hqm Hbc Hgl Hr Ha Hne.
  destruct (qmat_cells Hqm) as
    (a0 & a1 & a2 & a3 & c0 & c1 & c2 & c3 & g0 & g1 & g2 & g3
     & t0 & t1 & t2 & t3 & n0 & n1 & n2 & n3 & ->).
  five_cells bc Hbc. five_cells gl Hgl.
  unfold valid_idx in Hr, Ha.
  apply andb_prop in Hr, Ha. destruct Hr as [Hr0 Hr4], Ha as [Ha0 Ha4].
  apply Z.leb_le in Hr0, Hr4, Ha0, Ha4.
  assert (E23 : (2.0 / 3 = 2 / 3)%R) by lra.
  assert (E13 : (1.0 / 3 = 1 / 3)%R) by lra.
  assert (E14 : (1.0 / 4 = 1 / 4)%R) by lra.
  base_or_outside ref_idx; try lia; base_or_outside alt_idx; try lia;
    (split; [reflexivity|]);
    unfold qual_matrix_to_geno, L_hom_ref, L_het, L_hom_alt, L_ref_het,
      L_het_alt, other_contrib, Q, B;
    rewrite E23, E13, E14;
    destruct (Z.eqb_spec db 0); rcompute;
    repeat (f_equal; try ring).
Qed.

Lemma qual_matrix_to_geno_formula_witness :
  let qm := [[-1; -2; -3; -9]; [0; 0; 0; 0]; [-8; -2; -3; -1];
             [0; 0; 0; 0]; [0; 0; 0; 0]]%R in
  let bc := [8; 0; 2; 0; 0]%Z in
  List.length (other_bases 0 2) = 3%nat /\
  qual_matrix_to_geno qm bc 0 2 0 [0; 0; 0; 0; 0]%R =
    Ret ([L_hom_ref qm bc 0 2; L_het qm bc 0 2; L_hom_alt qm bc 0 2; 0; 0]%R,
         3%Z, 0%Z).
Proof.
  apply (@qual_matrix_to_geno_formula
           [[-1; -2; -3; -9]; [0; 0; 0; 0]; [-8; -2; -3; -1];
            [0; 0; 0; 0]; [0; 0; 0; 0]]%R
           [8; 0; 2; 0; 0]%Z 0%Z 2%Z 0%Z [0; 0; 0; 0; 0]%R);
    try reflexivity; try lia.
  split; [reflexivity | repeat constructor].
Defined.

(** *** Order of the entries of the quality vector *)

Section QualVector.

Local Open Scope R_scope.

Lemma ln_10_pos : 0 < ln 10.
Proof. rewrite <- ln_1. apply ln_increasing; lra. Qed.

Lemma ln_le_compat (x y : R) : 0 < x -> x <= y -> ln x <= ln y.
Proof.
  intros Hx [Hlt | ->]; [left; apply ln_increasing; assumption | right; reflexivity].
Qed.

Lemma exp_le_compat (x y : R) : x <= y -> exp x <= exp y.
Proof.
  intros [Hlt | ->]; [left; apply exp_increasing; assumption | right; reflexivity].
Qed.

(** The error probability [pow(0.1, bq / 10)] is [exp (- bq / 10 * ln 10)]. *)
Lemma err_prob_exp (bq : R) : Rpower 0.1 (bq / 10) = exp (- (bq / 10 * ln 10)).
Proof.
  unfold Rpower. f_equal.
  replace 0.1 with (/ 10) by lra.
  rewrite ln_Rinv by lra. ring.
Qed.

Lemma err_prob_pos (bq : R) : 0 < Rpower 0.1 (bq / 10).
Proof. unfold Rpower. apply exp_pos. Qed.

(** From quality [10 log10 (8/3)] on, the error probability is at most 3/8. *)
Lemma err_prob_le_3_8 (bq : R) :
  10 * (ln (8 / 3) / ln 10) <= bq -> Rpower 0.1 (bq / 10) <= 3 / 8.
Proof.
  intros H. pose proof ln_10_pos as L.
  rewrite err_prob_exp.
  replace (3 / 8) with (exp (- ln (8 / 3))).
  - apply exp_le_compat.
    assert (ln (8 / 3) <= bq / 10 * ln 10); [|lra].
    apply Rmult_le_reg_r with (r := / ln 10).
    { apply Rinv_0_lt_compat; assumption. }
    replace (bq / 10 * ln 10 * / ln 10) with (bq / 10) by (field; lra).
    unfold Rdiv in H. lra.
  - rewrite exp_Ropp, exp_ln by lra. lra.
Qed.

Lemma qual_entries_order (p : R) :
  0 < p -> p <= 3 / 8 -> non_increasing (qual_entries p).
Proof.
  intros Hp Hle. unfold qual_entries, non_increasing.
  repeat split; try apply Rle_ge; try apply ln_le_compat; lra.
Qed.

End QualVector.

(** C3 (as stated) fails: at quality 2 with floor 0.25 and cap 45 the
    error probability is [10^(-1/5)], above 3/8, and entry 2 is below
    entry 3. *)
Lemma get_qual_vector_low_quality_increases :
  (0.25 <= 45 /\ 0.25 <= 2 <= 45)%R /\
  exists e0 e1 e2 e3 : R,
    get_qual_vector 2 45 0.25 [0; 0; 0; 0]%R = Ret ([e0; e1; e2; e3], 0%Z) /\
    ~ non_increasing [e0; e1; e2; e3].
Proof.
  split; [lra|].
  unfold get_qual_vector. rcompute.
  rewrite Rmin_right by lra. rewrite Rmax_left by lra.
  set (p := Rpower 0.1 (2 / 10)).
  do 4 eexists. split; [reflexivity|].
  assert (Hp0 : (0 < p)%R) by apply err_prob_pos.
  assert (Hp1 : (p < 1)%R).
  { unfold p. rewrite err_prob_exp. rewrite <- exp_0.
    apply exp_increasing. pose proof ln_10_pos. lra. }
  assert (Hp5 : (p ^ 5 = 0.1)%R).
  { rewrite <- Rpower_pow by assumption. unfold p.
    rewrite Rpower_mult.
    replace (2 / 10 * INR 5)%R with 1%R by (simpl; lra).
    apply Rpower_1. lra. }
  assert (Hlow : (3 / 8 < p)%R).
  { apply Rnot_le_lt. intros Hle.
    assert (p ^ 5 <= (3 / 8) ^ 5)%R by (apply pow_incr; lra).
    lra. }
  cbn [non_increasing]. intros (_ & _ & H23 & _).
  apply Rge_le in H23.
  assert (ln (0.5 - 1.0 / 3 * p) < ln p)%R by (apply ln_increasing; lra).
  lra.
Qed.

(** C3 (amended).  For bounds floor <= cap and a quality q with
    floor <= q <= cap and q >= 10 log10 (8/3) (about 4.26, that is an error
    probability of at most 3/8), the four entries written by
    [get_qual_vector] are non-increasing. *)
Theorem get_qual_vector_non_increasing (q cap floor : R) (rv : list R) :
  (floor <= cap)%R -> (floor <= q <= cap)%R ->
  (10 * (ln (8 / 3) / ln 10) <= q)%R ->
  List.length rv = 4%nat ->
  exists e0 e1 e2 e3 : R,
    get_qual_vector q cap floor rv = Ret ([e0; e1; e2; e3], 0%Z) /\
    non_increasing [e0; e1; e2; e3].
Proof.
  intros Hfc Hq Hthr Hrv.
  four_cells rv Hrv.
  unfold get_qual_vector. rcompute.
  rewrite Rmin_right by lra. rewrite Rmax_left by lra.
  do 4 eexists. split; [reflexivity|].
  apply (@qual_entries_order (Rpower 0.1 (q / 10))).
  - apply err_prob_pos.
  - apply err_prob_le_3_8. exact Hthr.
Qed.

Lemma get_qual_vector_non_increasing_witness :
  exists e0 e1 e2 e3 : R,
    get_qual_vector 30 45 0 [0; 0; 0; 0]%R = Ret ([e0; e1; e2; e3], 0%Z) /\
    non_increasing [e0; e1; e2; e3].
Proof.
  apply (@get_qual_vector_non_increasing 30 45 0 [0; 0; 0; 0]%R);
    try lra; try reflexivity.
  pose proof ln_10_pos as L.
  assert (ln (8 / 3) <= ln 10)%R by (apply ln_le_compat; lra).
  apply Rmult_le_reg_r with (r := ln 10); [assumption|].
  replace (10 * (ln (8 / 3) / ln 10) * ln 10)%R with (10 * ln (8 / 3))%R
    by (field; lra).
  lra.
Defined.

(** ** Reset *)

Lemma kv_reset_idem {A} (v : kvec A) : kv_reset (kv_reset v) = kv_reset v.
Proof. reflexivity. Qed.

Lemma sz_pool_reset_idem {A} (clear : A -> A) (p : sz_pool_t A) :
  sz_pool_reset clear (sz_pool_reset clear p) = sz_pool_reset clear p.
Proof. unfold sz_pool_reset. simpl. reflexivity. Qed.

Lemma option_map_idem {A} (f : A -> A) (o : option A) :
  (forall x, f (f x) = f x) -> option_map f (option_map f o) = option_map f o.
Proof. intros H. destruct o; simpl; [rewrite H|]; reflexivity. Qed.

Lemma map_idem {A} (f : A -> A) (l : list A) :
  (forall x, f (f x) = f x) -> map f (map f l) = map f l.
Proof.
  intros H. rewrite map_map. apply map_ext. intros x. apply H.
Qed.

Lemma csp_plp_reset_idem (p : option csp_plp_t) :
  csp_plp_reset (csp_plp_reset p) = csp_plp_reset p.
Proof.
  destruct p as [p|]; [|reflexivity].
  unfold csp_plp_reset. cbn [plp_qu plp_gl plp_hug].
  rewrite (map_idem (@kv_reset Z)) by apply kv_reset_idem.
  rewrite (option_map_idem (@KHash.kh_clear Z)) by reflexivity.
  reflexivity.
Qed.

Lemma csp_map_sg_reset_val_idem (h : csp_map_sg_t) :
  csp_map_sg_reset_val (csp_map_sg_reset_val h) = csp_map_sg_reset_val h.
Proof.
  unfold csp_map_sg_reset_val. rewrite map_map. apply map_ext.
  intros [k v]. cbn [fst snd]. rewrite csp_plp_reset_idem. reflexivity.
Qed.

(** C8.  Reset is idempotent, on the pileup of one sample group and on the
    aggregator: a second reset in a row changes nothing. *)
Theorem reset_idempotent :
  (forall p : option csp_plp_t,
      csp_plp_reset (csp_plp_reset p) = csp_plp_reset p) /\
  (forall m : option csp_mplp_t,
      csp_mplp_reset (csp_mplp_reset m) = csp_mplp_reset m).
Proof.
  split; [exact csp_plp_reset_idem|].
  intros [m|]; [|reflexivity].
  unfold csp_mplp_reset.
  cbn [ref_idx alt_idx inf_rid inf_aid hsg hsg_iter nsg pu pl su].
  rewrite (option_map_idem csp_map_sg_reset_val)
    by apply csp_map_sg_reset_val_idem.
  unfold csp_pool_uu_reset, csp_pool_ul_reset, csp_pool_ps_reset.
  rewrite !option_map_idem by (intros; apply sz_pool_reset_idem).
  reflexivity.
Qed.

Lemma csp_plp_reset_cleared (p : csp_plp_t) :
  exists p', csp_plp_reset (Some p) = Some p' /\
             plp_cleared p' /\ plp_kept p p'.
Proof.
  eexists. split; [reflexivity|]. unfold plp_cleared, plp_kept.
  cbn [plp_bc plp_tc plp_ad plp_dp plp_oth plp_qu plp_qmat plp_gl plp_ngl
       plp_hug].
  repeat split.
  - apply Forall_forall. intros v Hv.
    apply in_map_iff in Hv as (v0 & <- & _). reflexivity.
  - intros h Hh. destruct (plp_hug p); [|discriminate].
    injection Hh as <-. reflexivity.
  - induction (plp_qu p) as [|v l IH]; constructor;
      [split; reflexivity|exact IH].
  - destruct (plp_hug p); [discriminate|reflexivity].
  - intros ->. reflexivity.
Qed.

Lemma csp_map_sg_reset_val_cleared (h : csp_map_sg_t) :
  sg_cleared h (csp_map_sg_reset_val h).
Proof.
  unfold sg_cleared, csp_map_sg_reset_val.
  induction h as [|[k v] h IH]; constructor; [|exact IH].
  cbn [fst snd]. destruct v as [p|]; [|exact I].
  destruct (csp_plp_reset_cleared p) as (p' & -> & Hp). exact Hp.
Qed.

Lemma firstn_reset {A} (clear : A -> A) (n : nat) (a : list A) :
  firstn n (map clear (firstn n a) ++ skipn n a) = map clear (firstn n a).
Proof.
  revert a. induction n as [|n IH]; intros [|x a]; cbn; try reflexivity.
  f_equal. apply IH.
Qed.

Lemma sz_pool_reset_cleared {A} (clear : A -> A) (used : A -> Prop)
      (p : sz_pool_t A) :
  (forall x, used (clear x)) -> pool_cleared used p (sz_pool_reset clear p).
Proof.
  intros Hused. unfold pool_cleared, sz_pool_reset. cbn [pool_l pool_a].
  repeat split.
  - rewrite length_app, length_map, <- length_app, firstn_skipn.
    reflexivity.
  - rewrite firstn_reset. apply Forall_forall. intros y Hy.
    apply in_map_iff in Hy as (x & <- & _). apply Hused.
Qed.

Lemma opt_rel_map {A} (R : A -> A -> Prop) (f : A -> A) (o : option A) :
  (forall x, R x (f x)) -> opt_rel R o (option_map f o).
Proof. intros H. destruct o; cbn; [apply H|exact I]. Qed.

(** C10.  [csp_mplp_reset] clears the site-level counters, every
    per-sample pileup (counts, quality lists, quality matrix, likelihood
    count and UMI groups; a NULL pileup stays NULL), the three pools
    (nothing in use any more, nothing deallocated, the UMI lists that were
    in use emptied and the UMI strings that were in use freed) and [qvec];
    the allele indices [ref_idx], [alt_idx], [inf_rid], [inf_aid] and the
    sample-group mapping (the names held by [hsg], [hsg_iter], [nsg]) are
    unchanged. *)
Theorem csp_mplp_reset_frame (m : csp_mplp_t) :
  exists m', csp_mplp_reset (Some m) = Some m' /\
             site_cleared m m' /\ same_frame m m'.
Proof.
  eexists. split; [reflexivity|]. split.
  - unfold site_cleared.
    cbn [mplp_bc mplp_tc mplp_ad mplp_dp mplp_oth nr_ad nr_dp nr_oth
         hsg pu pl su qvec].
    repeat split.
    + apply opt_rel_map. exact csp_map_sg_reset_val_cleared.
    + apply opt_rel_map. intros p. apply sz_pool_reset_cleared. auto.
    + apply opt_rel_map. intros p. apply sz_pool_reset_cleared.
      reflexivity.
    + apply opt_rel_map. intros p. apply sz_pool_reset_cleared.
      reflexivity.
  - unfold same_frame; cbn.
    repeat split; destruct (hsg m) as [h|]; cbn; try reflexivity.
    f_equal. unfold csp_map_sg_reset_val, KHash.keys. rewrite map_map.
    apply map_ext. intros [k v]. reflexivity.
Qed.

(** ** Arrays and hash tables *)

Section ArrayFacts.

Context {A : Type}.
Implicit Types (a : list A) (n : nat) (x : A).

Lemma len_cons x a : Arr.len (x :: a) = 1 + Arr.len a.
Proof. unfold Arr.len. cbn [List.length]. lia. Qed.

Lemma len_app a b : Arr.len (a ++ b) = Arr.len a + Arr.len b.
Proof. unfold Arr.len. rewrite length_app. lia. Qed.

Lemma len_nonneg a : 0 <= Arr.len a.
Proof. unfold Arr.len. lia. Qed.

Lemma rd_of_nat a n :
  Arr.rd a (Z.of_nat n)
  = match nth_error a n with Some x => Ret x | None => UB end.
Proof.
  unfold Arr.rd. destruct (Z.leb_spec 0 (Z.of_nat n)); [|lia].
  rewrite Nat2Z.id. reflexivity.
Qed.

Lemma length_upd a n x : List.length (Arr.upd a n x) = List.length a.
Proof.
  revert n; induction a as [|h t IH]; intros [|n]; cbn; auto.
Qed.

Lemma nth_error_upd_same a n x :
  (n < List.length a)%nat -> nth_error (Arr.upd a n x) n = Some x.
Proof.
  revert n; induction a as [|h t IH]; intros [|n] H; cbn in *;
    try lia; auto.
  apply IH. lia.
Qed.

Lemma nth_error_upd_other a n m x :
  n <> m -> nth_error (Arr.upd a n x) m = nth_error a m.
Proof.
  revert n m; induction a as [|h t IH]; intros [|n] [|m] H; cbn;
    try congruence; auto.
Qed.

Lemma upd_last a x y : Arr.upd (a ++ [x]) (List.length a) y = a ++ [y].
Proof. induction a as [|h t IH]; cbn; [|rewrite IH]; reflexivity. Qed.

Lemma wr_of_nat a n x :
  (n < List.length a)%nat -> Arr.wr a (Z.of_nat n) x = Ret (Arr.upd a n x).
Proof.
  intros H. unfold Arr.wr, Arr.in_bounds, Arr.len.
  destruct (Z.leb_spec 0 (Z.of_nat n)); [|lia].
  destruct (Z.ltb_spec (Z.of_nat n) (Z.of_nat (List.length a))); [|lia].
  rewrite Nat2Z.id. reflexivity.
Qed.

End ArrayFacts.

Section KHashFacts.

Context {V : Type}.
Implicit Types (h : KHash.t V) (key : string).

Lemma find_from_shift h key i :
  KHash.find_from h key i = i + KHash.find_from h key 0.
Proof.
  revert i; induction h as [|[k v] h IH]; intros i; cbn [KHash.find_from]; [lia|].
  destruct (String.eqb k key); [lia|].
  rewrite (IH (i + 1)), (IH (0 + 1)). lia.
Qed.

Lemma kh_get_range h key : 0 <= KHash.kh_get h key <= KHash.kh_end h.
Proof.
  unfold KHash.kh_get, KHash.kh_end.
  induction h as [|[k v] h IH]; cbn [KHash.find_from]; [unfold Arr.len; cbn; lia|].
  rewrite len_cons. destruct (String.eqb k key).
  - pose proof (len_nonneg h). lia.
  - rewrite find_from_shift. lia.
Qed.

(** [kh_get] answers [kh_end] exactly for the keys that are absent. *)
Lemma kh_get_end_iff h key :
  KHash.kh_get h key = KHash.kh_end h <-> ~ In key (KHash.keys h).
Proof.
  unfold KHash.kh_get, KHash.kh_end, KHash.keys.
  induction h as [|[k v] h IH]; cbn [KHash.find_from map fst In].
  - unfold Arr.len; cbn. tauto.
  - rewrite len_cons. destruct (String.eqb_spec k key) as [->|Hne].
    + pose proof (len_nonneg h). split; [lia|tauto].
    + rewrite find_from_shift. split.
      * intros H [E|Hin]; [congruence|]. apply IH; [lia|assumption].
      * intros H. assert (KHash.find_from h key 0 = Arr.len h); [|lia].
        apply IH. tauto.
Qed.

(** The bucket found for a key holds that key. *)
Lemma kh_get_key h key :
  KHash.kh_get h key <> KHash.kh_end h ->
  KHash.kh_key h (KHash.kh_get h key) = Ret key.
Proof.
  unfold KHash.kh_get, KHash.kh_end, KHash.kh_key.
  induction h as [|[k v] h IH]; cbn [KHash.find_from].
  - unfold Arr.len; cbn. congruence.
  - rewrite len_cons. destruct (String.eqb_spec k key) as [->|Hne].
    + intros _. reflexivity.
    + rewrite find_from_shift. change (0 + 1) with 1. intros H.
      assert (Hh : KHash.find_from h key 0 <> Arr.len h) by lia.
      specialize (IH Hh).
      pose proof (kh_get_range h key) as R. unfold KHash.kh_get in R.
      revert IH. unfold Arr.rd.
      destruct (Z.leb_spec 0 (KHash.find_from h key 0)); [|lia].
      destruct (Z.leb_spec 0 (1 + KHash.find_from h key 0)); [|lia].
      replace (Z.to_nat (1 + KHash.find_from h key 0))
        with (S (Z.to_nat (KHash.find_from h key 0))) by lia.
      cbn. auto.
Qed.

Lemma keys_app h h' : KHash.keys (h ++ h') = KHash.keys h ++ KHash.keys h'.
Proof. unfold KHash.keys. apply map_app. Qed.

(** A key that is absent takes the bucket after the last one. *)
Lemma kh_put_new h key junk :
  ~ In key (KHash.keys h) ->
  KHash.kh_put h key junk = (h ++ [(key, junk)], KHash.kh_end h, 1).
Proof.
  intros H. unfold KHash.kh_put.
  apply kh_get_end_iff in H. rewrite H, Z.eqb_refl. reflexivity.
Qed.

Lemma kh_put_old h key junk :
  In key (KHash.keys h) ->
  KHash.kh_put h key junk = (h, KHash.kh_get h key, 0).
Proof.
  intros H. unfold KHash.kh_put.
  destruct (Z.eqb_spec (KHash.kh_get h key) (KHash.kh_end h)) as [E|E];
    [|reflexivity].
  apply kh_get_end_iff in E. contradiction.
Qed.

Lemma set_val_last h key junk v :
  KHash.set_val (h ++ [(key, junk)]) (KHash.kh_end h) v
  = Ret (h ++ [(key, v)]).
Proof.
  unfold KHash.set_val, KHash.kh_end, Arr.len.
  rewrite rd_of_nat, nth_error_app2, Nat.sub_diag by lia. cbn [nth_error bind fst].
  rewrite wr_of_nat by (rewrite length_app; cbn; lia).
  rewrite upd_last. reflexivity.
Qed.

End KHashFacts.

(** ** Sample-group names *)

Lemma keys_sg_entries names : KHash.keys (sg_entries names) = names.
Proof.
  unfold KHash.keys, sg_entries. rewrite map_map. cbn. apply map_id.
Qed.

(** The first loop never faults, and it runs to its end only on names that
    are all present, pairwise distinct and new to the table. *)
Lemma put_names_total (s : list (option string)) :
  forall h : csp_map_sg_t,
  exists r, put_names h s = Ret r /\
    forall h', r = PutDone h' ->
      exists names, s = map Some names /\ NoDup names /\
        (forall x, In x names -> ~ In x (KHash.keys h)) /\
        h' = h ++ sg_entries names.
Proof.
  induction s as [|[name|] rest IH]; intros h; cbn [put_names].
  - eexists; split; [reflexivity|]. intros h' [= <-].
    exists []. cbn. rewrite app_nil_r. repeat split; auto using NoDup_nil.
  - destruct (in_dec string_dec name (KHash.keys h)) as [Hin|Hnew].
    + rewrite (@kh_put_old _ h name None Hin). cbn.
      eexists; split; [reflexivity|]. discriminate.
    + rewrite (@kh_put_new _ h name None Hnew). cbn [Z.leb Z.compare].
      rewrite set_val_last. cbn [bind].
      destruct (IH (h ++ [(name, None)])) as (r & Er & Hr).
      exists r; split; [exact Er|].
      intros h' ->. destruct (Hr h' eq_refl) as (names & -> & Hnd & Hfresh & ->).
      exists (name :: names). cbn [map sg_entries].
      assert (Hout : ~ In name names).
      { intros Hin. apply (Hfresh _ Hin).
        rewrite keys_app. apply in_or_app. right. cbn. auto. }
      repeat split.
      * constructor; assumption.
      * intros x [<-|Hx]; [assumption|].
        intros Hin. apply (Hfresh _ Hx).
        rewrite keys_app. apply in_or_app. auto.
      * rewrite <- app_assoc. reflexivity.
  - eexists; split; [reflexivity|]. discriminate.
Qed.

Lemma put_names_fresh (names : list string) :
  forall h : csp_map_sg_t,
    NoDup names -> (forall x, In x names -> ~ In x (KHash.keys h)) ->
    put_names h (map Some names) = Ret (PutDone (h ++ sg_entries names)).
Proof.
  induction names as [|name names IH]; intros h Hnd Hfresh; cbn [map put_names].
  - cbn. rewrite app_nil_r. reflexivity.
  - inversion_clear Hnd as [|? ? Hout Hnd'].
    rewrite (@kh_put_new _ h name None (Hfresh name (or_introl eq_refl))).
    cbn [Z.leb Z.compare]. rewrite set_val_last. cbn [bind].
    rewrite IH.
    + cbn [sg_entries map]. rewrite <- app_assoc. reflexivity.
    + assumption.
    + intros x Hx. rewrite keys_app. intros Hin.
      apply in_app_or in Hin. destruct Hin as [Hin|[<-|[]]].
      * apply (Hfresh x); [right; assumption|assumption].
      * contradiction.
Qed.

(** When the second loop runs to its end, every name is present and
    [hsg_iter[i]] holds the bucket of the i-th name. *)
Lemma get_iters_done_inv (h : csp_map_sg_t) (s : list (option string)) :
  forall (i : nat) (it it' : list Z),
    get_iters h s (Z.of_nat i) it = Ret (GetDone it') ->
    List.length it' = List.length it /\
    (forall j, (j < i)%nat -> nth_error it' j = nth_error it j) /\
    (forall j, (j < List.length s)%nat ->
       exists name, nth_error s j = Some (Some name) /\
                    nth_error it' (i + j) = Some (KHash.kh_get h name) /\
                    KHash.kh_get h name <> KHash.kh_end h).
Proof.
  induction s as [|[name|] rest IH]; intros i it it'; cbn [get_iters].
  - intros [= <-]. repeat split; auto. cbn. lia.
  - cbn [Arr.deref bind].
    destruct (Z.eqb_spec (KHash.kh_get h name) (KHash.kh_end h)) as [E|E];
      [discriminate|].
    unfold Arr.wr.
    destruct (Arr.in_bounds it (Z.of_nat i)) eqn:Hb; [|discriminate].
    cbn [bind]. rewrite Nat2Z.id.
    replace (Z.of_nat i + 1) with (Z.of_nat (S i)) by lia.
    intros H. apply IH in H. destruct H as (Hlen & Hlow & Hnames).
    rewrite length_upd in Hlen.
    assert (Hi : (i < List.length it)%nat).
    { unfold Arr.in_bounds, Arr.len in Hb.
      apply andb_prop in Hb. destruct Hb as [_ Hb].
      apply Z.ltb_lt in Hb. lia. }
    repeat split.
    + assumption.
    + intros j Hj. rewrite Hlow by lia.
      apply nth_error_upd_other. lia.
    + intros [|j] Hj.
      * exists name. rewrite Nat.add_0_r, Hlow by lia.
        rewrite nth_error_upd_same by assumption. auto.
      * cbn [List.length] in Hj.
        destruct (Hnames j) as (nm & E1 & E2 & E3); [lia|].
        exists nm. cbn [nth_error].
        replace (i + S j)%nat with (S i + j)%nat by lia. auto.
  - cbn. discriminate.
Qed.

(** On names that are all in the table and an array that is long enough,
    the second loop runs to its end. *)
Lemma get_iters_done (h : csp_map_sg_t) (names : list string) :
  forall (i : nat) (it : list Z),
    (forall x, In x names -> In x (KHash.keys h)) ->
    (i + List.length names <= List.length it)%nat ->
    exists it', get_iters h (map Some names) (Z.of_nat i) it
                = Ret (GetDone it').
Proof.
  induction names as [|name names IH]; intros i it Hin Hlen;
    cbn [map get_iters].
  - eexists; reflexivity.
  - cbn [Arr.deref bind]. cbn [List.length] in Hlen.
    destruct (Z.eqb_spec (KHash.kh_get h name) (KHash.kh_end h)) as [E|E].
    { apply kh_get_end_iff in E. exfalso. apply E, Hin. left; reflexivity. }
    rewrite wr_of_nat by lia. cbn [bind].
    replace (Z.of_nat i + 1) with (Z.of_nat (S i)) by lia.
    apply IH.
    + intros x Hx. apply Hin. right; assumption.
    + rewrite length_upd. lia.
Qed.

(** C2 (as stated) fails in its last part: a second call on the same
    aggregator is accepted when it brings new names. *)
Lemma csp_mplp_set_sg_second_call_accepted :
  exists p1 p2,
    csp_mplp_set_sg (Some csp_mplp_init) (Some [Some "a"]) = Ret (0, Some p1)
    /\ csp_mplp_set_sg (Some p1) (Some [Some "b"]) = Ret (0, Some p2).
Proof. do 2 eexists. split; reflexivity. Qed.

Lemma set_sg_fails_unless_put_done (p : csp_mplp_t) (s : list (option string)) :
  (forall h', put_names (match hsg p with Some h => h | None => KHash.kh_init end) s
              <> Ret (PutDone h')) ->
  exists st, csp_mplp_set_sg (Some p) (Some s) = Ret (-1, st).
Proof.
  intros Hno. unfold csp_mplp_set_sg.
  destruct (Arr.len s =? 0); [eexists; reflexivity|].
  destruct (put_names_total s
              (match hsg p with Some h => h | None => KHash.kh_init end))
    as (r & -> & _) in Hno |- *.
  cbn [bind]. destruct r; try (eexists; reflexivity).
  exfalso. eapply Hno. reflexivity.
Qed.

(** C2 (amended).  On success [hsg_iter[i]] is the bucket of [names[i]] for
    every i < n and [nsg] is n; every duplicate-free non-empty list succeeds
    on a freshly initialised aggregator; a list that repeats a name fails;
    and a second call fails when its list holds a name of the first call. *)
Theorem csp_mplp_set_sg_contract :
  (forall p s p',
      csp_mplp_set_sg (Some p) (Some s) = Ret (0, Some p') ->
      nsg p' = Arr.len s /\
      exists h it, hsg p' = Some h /\ hsg_iter p' = Some it /\
        forall i, 0 <= i < Arr.len s ->
          exists name k, Arr.rd s i = Ret (Some name) /\
                         Arr.rd it i = Ret k /\
                         KHash.kh_key h k = Ret name) /\
  (forall names,
      names <> [] -> NoDup names ->
      exists p', csp_mplp_set_sg (Some csp_mplp_init) (Some (map Some names))
                 = Ret (0, Some p')) /\
  (forall p s,
      repeats_a_name s ->
      exists st, csp_mplp_set_sg (Some p) (Some s) = Ret (-1, st)) /\
  (forall names1 p1 s2 name,
      csp_mplp_set_sg (Some csp_mplp_init) (Some (map Some names1))
        = Ret (0, Some p1) ->
      In name names1 -> In (Some name) s2 ->
      exists st, csp_mplp_set_sg (Some p1) (Some s2) = Ret (-1, st)).
Proof.
  split; [|split; [|split]].
  - intros p s p'. unfold csp_mplp_set_sg.
    destruct (Arr.len s =? 0); [discriminate|].
    destruct (put_names _ s) as [[h| |h]|]; cbn [bind]; try discriminate.
    destruct (get_iters h s 0 _) as [[it|it]|] eqn:Eg; cbn [bind];
      try discriminate.
    intros [= <-]. cbn [nsg hsg hsg_iter with_sg]. split; [reflexivity|].
    exists h, it. repeat split.
    apply (get_iters_done_inv h s 0%nat) in Eg.
    destruct Eg as (_ & _ & Hnames).
    intros i Hi. destruct (Hnames (Z.to_nat i)) as (name & E1 & E2 & E3).
    { unfold Arr.len in Hi. lia. }
    exists name, (KHash.kh_get h name).
    replace i with (Z.of_nat (Z.to_nat i)) by lia.
    rewrite !rd_of_nat, E1. cbn [Nat.add] in E2. rewrite E2.
    auto using kh_get_key.
  - intros names Hne Hnd. unfold csp_mplp_set_sg. cbn [hsg hsg_iter csp_mplp_init].
    destruct (Z.eqb_spec (Arr.len (map Some names)) 0) as [E|_].
    { destruct names; [congruence|]. cbn [map] in E. rewrite len_cons in E.
      pose proof (len_nonneg (map Some names)). lia. }
    rewrite put_names_fresh by (cbn; auto). cbn [bind app KHash.kh_init].
    destruct (@get_iters_done (sg_entries names) names 0%nat
                (repeat 0 (Z.to_nat (Arr.len (map Some names)))))
      as (it' & Eit).
    + intros x Hx. rewrite keys_sg_entries. assumption.
    + rewrite repeat_length. unfold Arr.len. rewrite length_map. lia.
    + cbn [Z.of_nat] in Eit. rewrite Eit. cbn [bind]. eexists. reflexivity.
  - intros p s (i & j & name & Hij & Ei & Ej).
    apply set_sg_fails_unless_put_done. intros h' E.
    destruct (put_names_total s
                (match hsg p with Some h => h | None => KHash.kh_init end))
      as (r & Er & Hr).
    rewrite E in Er. injection Er as <-.
    destruct (Hr h' eq_refl) as (names & -> & Hnd & _).
    rewrite nth_error_map in Ei, Ej.
    destruct (nth_error names i) as [x|] eqn:Ni; [|discriminate].
    destruct (nth_error names j) as [y|] eqn:Nj; [|discriminate].
    injection Ei as ->. injection Ej as ->.
    rewrite NoDup_nth_error in Hnd.
    assert (i = j); [|lia].
    apply Hnd; [|congruence].
    apply nth_error_Some. congruence.
  - intros names1 p1 s2 name H1 Hin1 Hin2.
    assert (Hkeys : exists h1, hsg p1 = Some h1 /\ In name (KHash.keys h1)).
    { revert H1. unfold csp_mplp_set_sg. cbn [hsg hsg_iter csp_mplp_init].
      destruct (Arr.len (map Some names1) =? 0); [discriminate|].
      destruct (put_names_total (map Some names1) KHash.kh_init)
        as (r & Er & Hr).
      rewrite Er. cbn [bind]. destruct r as [h| |h]; try discriminate.
      destruct (Hr h eq_refl) as (names & En & _ & _ & ->).
      destruct (get_iters _ _ 0 _) as [[it|it]|]; cbn [bind]; try discriminate.
      intros [= <-]. cbn [hsg with_sg]. eexists; split; [reflexivity|].
      cbn [KHash.kh_init app]. rewrite keys_sg_entries.
      assert (En' : names1 = names).
      { revert En. clear. revert names.
        induction names1 as [|a l IH]; intros [|b l']; cbn;
          try discriminate; auto.
        intros [= -> E]. f_equal. auto. }
      subst names. assumption. }
    destruct Hkeys as (h1 & Eh1 & Hk).
    apply set_sg_fails_unless_put_done. rewrite Eh1. intros h' E.
    destruct (put_names_total s2 h1) as (r & Er & Hr).
    rewrite E in Er. injection Er as <-.
    destruct (Hr h' eq_refl) as (names & -> & _ & Hfresh & _).
    apply in_map_iff in Hin2. destruct Hin2 as (x & [= ->] & Hx).
    exact (Hfresh _ Hx Hk).
Qed.

Lemma csp_mplp_set_sg_contract_witness :
  (exists p', csp_mplp_set_sg (Some csp_mplp_init)
                              (Some (map Some ["s1"; "s2"]))
              = Ret (0, Some p')) /\
  (exists st, csp_mplp_set_sg (Some csp_mplp_init)
                              (Some [Some "s1"; Some "s2"; Some "s1"])
              = Ret (-1, st)).
Proof.
  destruct csp_mplp_set_sg_contract as (_ & Hfresh & Hdup & _).
  split.
  - apply Hfresh; [discriminate|].
    repeat constructor; cbn; intuition discriminate.
  - apply Hdup. exists 0%nat, 2%nat, "s1". repeat split. lia.
Defined.

(** ** Sparse-matrix output *)

(** A loop whose last iteration faults, faults. *)
Lemma for_range_last_faults {St : Type} (body : Z -> St -> res St) (n : nat) :
  forall (lo : Z) (s : St),
    (forall s', body (lo + Z.of_nat n) s' = UB) ->
    for_range (S n) lo body s = UB.
Proof.
  induction n as [|n IH]; intros lo s Hlast.
  - cbn [for_range]. replace lo with (lo + Z.of_nat 0) by (cbn; lia).
    rewrite Hlast. reflexivity.
  - cbn [for_range]. destruct (body lo s) as [s1|]; [|reflexivity].
    cbn [bind]. apply (IH (lo + 1) s1).
    intros s'. replace (lo + 1 + Z.of_nat n) with (lo + Z.of_nat (S n)) by lia.
    apply Hlast.
Qed.

Lemma sg_plp_past_the_end (m : csp_mplp_t) (it : list Z) :
  hsg_iter m = Some it -> Arr.len it = nsg m -> sg_plp m (nsg m) = UB.
Proof.
  intros Hit Hlen. unfold sg_plp. rewrite Hit. cbn [Arr.deref bind].
  rewrite rd_outside by lia. reflexivity.
Qed.

(** With the array [hsg_iter] that [csp_mplp_set_sg] allocates (one entry
    per sample group), both string formatters read one entry past its end
    as soon as there is a sample group. *)
Lemma csp_mplp_str_mtx_out_of_bounds (m : csp_mplp_t) (it : list Z)
      (o : mtx_out) (idx : Z) :
  hsg_iter m = Some it -> Arr.len it = nsg m -> 1 <= nsg m ->
  csp_mplp_str_mtx m o idx = UB /\ csp_mplp_str_mtx_tmp m o = UB.
Proof.
  intros Hit Hlen Hn.
  pose proof (sg_plp_past_the_end m Hit Hlen) as Hend.
  unfold csp_mplp_str_mtx, csp_mplp_str_mtx_tmp.
  replace (Z.to_nat (nsg m)) with (S (Z.to_nat (nsg m - 1))) by lia.
  rewrite !for_range_last_faults; [split; reflexivity| |];
    intros s'; replace (1 + Z.of_nat (Z.to_nat (nsg m - 1))) with (nsg m)
      by lia;
    unfold str_mtx_body, str_mtx_tmp_body; rewrite Hend; reflexivity.
Qed.

(** C1 fails on the code.  On the site with two sample groups, the string
    formatters label the counts of the second group with sample index 1
    and then read [hsg_iter] past its end, while [csp_mplp_to_mtx], which
    reads [hsg_iter[i - 1]], writes the lines the specification asks for. *)
Theorem csp_mplp_str_mtx_reads_next_group :
  str_mtx_body mplp_two_groups 1 1 mtx_empty
    = Ret {| ks_ad := "";
             ks_dp := "1" +++ tab +++ "1" +++ tab +++ "7" +++ nl;
             ks_oth := "1" +++ tab +++ "1" +++ tab +++ "1" +++ nl |} /\
  str_mtx_tmp_body mplp_two_groups 1 mtx_empty
    = Ret {| ks_ad := "";
             ks_dp := "1" +++ tab +++ "7" +++ nl;
             ks_oth := "1" +++ tab +++ "1" +++ nl |} /\
  csp_mplp_str_mtx mplp_two_groups mtx_empty 1 = UB /\
  csp_mplp_str_mtx_tmp mplp_two_groups mtx_empty = UB /\
  csp_mplp_to_mtx mplp_two_groups jf_final jf_final jf_final 1
    = Ret (0,
           ({| is_tmp := false;
               jf_text := "1" +++ tab +++ "1" +++ tab +++ "3" +++ nl |},
            {| is_tmp := false;
               jf_text := ("1" +++ tab +++ "1" +++ tab +++ "5" +++ nl)
                          +++ "1" +++ tab +++ "2" +++ tab +++ "7" +++ nl |},
            {| is_tmp := false;
               jf_text := "1" +++ tab +++ "2" +++ tab +++ "1" +++ nl |})).
Proof.
  repeat split; try reflexivity;
    apply (@csp_mplp_str_mtx_out_of_bounds mplp_two_groups [0; 1]);
    reflexivity || (cbn; lia).
Qed.

(** ** Doubles *)

Lemma powerRZ_2_nonneg (e : Z) : 0 <= e -> powerRZ 2 e = IZR (2 ^ e).
Proof.
  intros H. destruct e as [|p|p]; [reflexivity| |lia].
  cbn [powerRZ]. rewrite <- (positive_nat_Z p), <- pow_IZR. reflexivity.
Qed.

Lemma powerRZ_2_neg (e : Z) : e < 0 -> powerRZ 2 e = (/ IZR (2 ^ (- e)))%R.
Proof.
  intros H. destruct e as [|p|p]; [lia|lia|].
  cbn [powerRZ Z.opp]. rewrite <- (positive_nat_Z p), <- pow_IZR.
  reflexivity.
Qed.

(** The distance of an integer to a fraction, over the denominator. *)
Lemma Rabs_frac (n m d : Z) :
  0 < d ->
  (Rabs (IZR n - IZR m * / IZR d) = IZR (Z.abs (n * d - m)) / IZR d)%R.
Proof.
  intros Hd. assert (0 < IZR d)%R by (apply IZR_lt; lia).
  replace (IZR n - IZR m * / IZR d)%R with (IZR (n * d - m) / IZR d)%R
    by (rewrite minus_IZR, mult_IZR; field; lra).
  unfold Rdiv. rewrite Rabs_mult, (Rabs_pos_eq (/ IZR d)).
  - rewrite <- abs_IZR. reflexivity.
  - left. apply Rinv_0_lt_compat. assumption.
Qed.

Lemma frac_lt_half (k d : Z) :
  0 < d -> 2 * k < d -> (IZR k / IZR d < 1 / 2)%R.
Proof.
  intros Hd Hk. assert (0 < IZR d)%R by (apply IZR_lt; lia).
  apply IZR_lt in Hk. rewrite mult_IZR in Hk.
  apply (Rmult_lt_reg_r (IZR d)); [assumption|].
  unfold Rdiv. rewrite Rmult_assoc, Rinv_l by lra. lra.
Qed.

Lemma frac_eq_half (k d : Z) :
  0 < d -> 2 * k = d -> (IZR k / IZR d = 1 / 2)%R.
Proof.
  intros Hd Hk. assert (HD : (0 < IZR d)%R) by (apply IZR_lt; lia).
  rewrite <- Hk, mult_IZR in *. field. lra.
Qed.

(** [round_half_even] rounds [m * 2^e] to the nearest integer, halves to
    the even one. *)
Lemma round_half_even_nearest (m : positive) (e : Z) :
  nearest_even (IZR (Zpos m) * powerRZ 2 e) (round_half_even m e).
Proof.
  unfold nearest_even, round_half_even.
  destruct (Z.leb_spec 0 e) as [He|He].
  - left. rewrite powerRZ_2_nonneg by assumption. rewrite <- mult_IZR.
    rewrite Rminus_diag, Rabs_R0. lra.
  - rewrite powerRZ_2_neg by assumption.
    set (d := 2 ^ (- e)).
    assert (Hd : 0 < d) by (apply Z.pow_pos_nonneg; lia).
    pose proof (Z.div_mod (Zpos m) d ltac:(lia)) as E.
    pose proof (Z.mod_pos_bound (Zpos m) d Hd) as B.
    set (q := Zpos m / d) in *. set (r := Zpos m mod d) in *.
    rewrite !Rabs_frac by assumption.
    destruct (Z.ltb_spec (2 * r) d) as [H1|H1];
      [left; apply frac_lt_half; lia|].
    destruct (Z.ltb_spec d (2 * r)) as [H2|H2];
      [left; apply frac_lt_half; lia|].
    right. destruct (Z.even q) eqn:Ev; split;
      try (apply frac_eq_half; lia); try assumption.
    rewrite Z.even_add, Ev. reflexivity.
Qed.

(** The order of [>] on doubles that are not NaN, as an order on keys:
    sign class first, then exponent and mantissa. *)
Lemma d_gt_key (x y : double) :
  is_nan x = false -> is_nan y = false ->
  (d_gt x y = true <-> key_lt (d_key y) (d_key x)).
Proof.
  intros Hx Hy. unfold d_gt, SFltb.
  destruct x as [sx|sx| |sx mx ex]; try discriminate;
    destruct y as [sy|sy| |sy my ey]; try discriminate;
    try destruct sx; try destruct sy; cbn;
    try (split; [discriminate | lia]);
    try (split; [lia | reflexivity]);
    try (split; [reflexivity | lia]).
  all: rewrite ?Pos.compare_cont_spec; cbn [Pos.switch_Eq];
    destruct (Z.compare_spec ey ex); destruct (Pos.compare_spec my mx);
    cbn; split; try discriminate; try reflexivity; try lia.
Qed.

Lemma d_gt_key_false (x y : double) :
  is_nan x = false -> is_nan y = false ->
  (d_gt x y = false <-> ~ key_lt (d_key y) (d_key x)).
Proof.
  intros Hx Hy. rewrite <- (@d_gt_key x y Hx Hy).
  destruct (d_gt x y); split; congruence.
Qed.

Lemma iter_pos_inv {A} (P : A -> Prop) (f : A -> A) :
  (forall x, P x -> P (f x)) -> forall n x, P x -> P (iter_pos f n x).
Proof.
  intros Hf. induction n as [n IH|n IH|]; intros x Hx; cbn; auto.
Qed.

Lemma shr_1_nonneg mrs : 0 <= shr_m mrs -> 0 <= shr_m (shr_1 mrs).
Proof.
  destruct mrs as [[|[p|p|]|p] r s]; cbn; lia.
Qed.

Lemma shr_fexp_nonneg m e l :
  0 <= m -> 0 <= shr_m (fst (shr_fexp 53 1024 m e l)).
Proof.
  intros Hm. unfold shr_fexp, shr.
  assert (H0 : 0 <= shr_m (shr_record_of_loc m l))
    by (destruct l as [|[| |]]; exact Hm).
  destruct (fexp 53 1024 (Zdigits2 m + e) - e) as [|p|p]; cbn [fst];
    try exact H0.
  apply (iter_pos_inv (fun mrs => 0 <= shr_m mrs)); [|exact H0].
  apply shr_1_nonneg.
Qed.

(** Rounding a mantissa that is not negative gives a zero, a finite
    number or an infinity of the sign asked for. *)
Lemma binary_round_aux_shape s m e l :
  0 <= m ->
  is_nan (binary_round_aux 53 1024 s m e l) = false /\
  d_sign (binary_round_aux 53 1024 s m e l) = s.
Proof.
  intros Hm. unfold binary_round_aux.
  pose proof (@shr_fexp_nonneg m e l Hm) as H1.
  destruct (shr_fexp 53 1024 m e l) as [mrs' e'] eqn:E1. cbn [fst] in H1.
  assert (H2 : 0 <= round_nearest_even (shr_m mrs')
                                       (loc_of_shr_record mrs')).
  { unfold round_nearest_even.
    destruct (loc_of_shr_record mrs') as [|[| |]]; try lia.
    destruct (Z.even (shr_m mrs')); lia. }
  pose proof (@shr_fexp_nonneg _ e' loc_Exact H2) as H3.
  destruct (shr_fexp 53 1024 _ e' loc_Exact) as [mrs'' e''] eqn:E2.
  cbn [fst] in H3.
  destruct (shr_m mrs'') as [|p|p]; [split; reflexivity| |lia].
  destruct (e'' <=? 1024 - 53); split; reflexivity.
Qed.

(** The product of a number with a finite double is a number, and its sign
    bit is the exclusive or of theirs. *)
Lemma d_mul_shape (x : double) (sy : bool) (my : positive) (ey : Z) :
  is_nan x = false ->
  is_nan (d_mul x (S754_finite sy my ey)) = false /\
  d_sign (d_mul x (S754_finite sy my ey)) = xorb (d_sign x) sy.
Proof.
  intros Hx. destruct x as [sx|sx| |sx mx ex]; try discriminate;
    cbn [d_mul SFmul d_sign is_nan]; try (split; reflexivity).
  apply binary_round_aux_shape. lia.
Qed.

(** ** VCF output *)

Lemma append_assoc (a b c : string) : (a +++ b) +++ c = a +++ (b +++ c).
Proof. induction a as [|ch a IH]; cbn; [|rewrite IH]; reflexivity. Qed.

Ltac split_index3 j :=
  assert (j = 0 \/ j = 1 \/ j = 2) as ?Hj by lia;
  repeat match goal with H : _ \/ _ |- _ => destruct H end; subst j.

(** Evaluate the control flow of the formatter, leaving numbers and text
    as written. *)
Ltac vcompute :=
  cbv -[d_mul d_gt vcf_tmp fmt_0f fmt_ld fmt_d String.append].

Lemma vcf_tmp_value : vcf_tmp = PL_scale.
Proof. vm_compute. reflexivity. Qed.

(** [get_idx_of_max] over three numbers finds their first arg-max. *)
Lemma get_idx_of_max_first (g0 g1 g2 : double) (rest : list double) :
  is_nan g0 = false -> is_nan g1 = false -> is_nan g2 = false ->
  exists m, get_idx_of_max (g0 :: g1 :: g2 :: rest) 3 = Ret m /\
            first_argmax3 (g0 :: g1 :: g2 :: rest) m.
Proof.
  intros N0 N1 N2.
  unfold get_idx_of_max, idx_of_max_step, first_argmax3.
  destruct (d_gt g1 g0) eqn:H10;
    [destruct (d_gt g2 g1) eqn:H21|destruct (d_gt g2 g0) eqn:H20];
    [exists 2|exists 1|exists 2|exists 0];
    (split; [vcompute; rewrite ?H10, ?H21, ?H20; reflexivity|]);
    (split; [lia|]);
    split; intros j Hj; split_index3 j; try lia;
    change (Z.to_nat 0) with 0%nat; change (Z.to_nat 1) with 1%nat;
    change (Z.to_nat 2) with 2%nat; cbn [nth];
    repeat match goal with
           | H : d_gt ?x ?y = true |- _ =>
               apply (proj1 (@d_gt_key x y ltac:(assumption)
                                       ltac:(assumption))) in H
           | H : d_gt ?x ?y = false |- _ =>
               apply (proj1 (@d_gt_key_false x y ltac:(assumption)
                                             ltac:(assumption))) in H
           | |- SFltb ?y ?x = true =>
               apply (proj2 (@d_gt_key x y ltac:(assumption)
                                       ltac:(assumption)))
           | |- SFltb ?y ?x = false =>
               apply (proj2 (@d_gt_key_false x y ltac:(assumption)
                                             ltac:(assumption)))
           end;
    destruct (d_key g0) as [[a1 a2] a3], (d_key g1) as [[b1 b2] b3],
             (d_key g2) as [[c1 c2] c3];
    unfold key_lt in *; lia.
Qed.

Lemma gt_of_rd (m : Z) : 0 <= m < 3 -> Arr.rd gt m = Ret (gt_of m).
Proof. intros H. split_index3 m; reflexivity. Qed.

(** What [%.0f] shows of the product of a likelihood with [tmp]. *)
Lemma fmt_0f_PL_entry (L : double) :
  is_nan L = false -> PL_entry L (fmt_0f (d_mul L vcf_tmp)).
Proof.
  intros HL. unfold PL_entry. rewrite vcf_tmp_value.
  destruct (@d_mul_shape L true 4889721167171368 (-50) HL) as [Hn Hs].
  rewrite xorb_true_r in Hs.
  change (S754_finite true 4889721167171368 (-50)) with PL_scale in *.
  change (SFmul 53 1024) with d_mul.
  destruct (d_mul L PL_scale) as [s|s| |s m e];
    cbn [is_nan d_sign fmt_0f d_R] in *;
    try discriminate; subst s; destruct (d_sign L) eqn:EL;
    cbn [negb sign_text].
  all: try reflexivity.
  1, 2: exists 0; (split; [|reflexivity]);
    left; rewrite Rabs_R0, Rminus_diag, Rabs_R0; lra.
  all: exists (round_half_even m e); (split; [|reflexivity]);
    assert (Hp : (0 < powerRZ 2 e)%R) by (apply powerRZ_lt; lra);
    assert (Hm : (0 < IZR (Zpos m))%R) by (apply IZR_lt; lia);
    (replace (Rabs _) with (IZR (Zpos m) * powerRZ 2 e)%R;
     [apply round_half_even_nearest|]);
    rewrite Rabs_mult, (Rabs_pos_eq (powerRZ 2 e)) by lra;
    rewrite ?Rabs_Ropp; rewrite Rabs_pos_eq by lra; reflexivity.
Qed.

Lemma Forall2_map_of {A B} (P : A -> Prop) (R : A -> B -> Prop)
      (f : A -> B) (l : list A) :
  (forall x, P x -> R x (f x)) -> Forall P l -> Forall2 R l (map f l).
Proof.
  intros H. induction 1; cbn; constructor; auto.
Qed.

Lemma is_round_0 (n : Z) : is_round (-10 * 0 / ln 10) n -> n = 0.
Proof.
  unfold is_round. replace (-10 * 0 / ln 10)%R with 0%R
    by (unfold Rdiv; ring).
  rewrite Rminus_0_r, <- abs_IZR. intros H.
  destruct (Z.eq_dec n 0) as [|Hn]; [assumption|exfalso].
  assert (H1 : (1 <= IZR (Z.abs n))%R) by (apply IZR_le; lia). lra.
Qed.

(** C5, counterexample.  A pileup with 10 reads whose likelihoods are all
    0 (the state [calloc] leaves them in): [0.0 * tmp] is [-0.0] and
    [%.0f] writes [-0], so the PL part is [-0,-0,-0], whereas
    [round(-10 * 0 / ln 10)] is 0.  Whatever the genotype class and the
    rounding of halves, the text written is not the layout with the
    rounded integers. *)
Lemma csp_plp_str_vcf_writes_minus_zero :
  csp_plp_str_vcf (plp_counts 2 10 0) ""
  = Ret (0, "0/0:2:10:0:-0,-0,-0:8,0,2,0,0") /\
  forall m pls,
    round_PL (firstn 3 (plp_gl (plp_counts 2 10 0))) pls ->
    csp_plp_str_vcf (plp_counts 2 10 0) ""
    <> Ret (0, vcf_field (plp_counts 2 10 0) m pls).
Proof.
  split; [vm_compute; reflexivity|].
  intros m pls (ns & Hns & ->).
  cbn [plp_counts plp_gl repeat firstn] in Hns.
  inversion Hns as [|L0 n0 t0 ns0 R0 F0]; subst.
  inversion F0 as [|L1 n1 t1 ns1 R1 F1]; subst.
  inversion F1 as [|L2 n2 t2 ns2 R2 F2]; subst.
  inversion F2; subst.
  cbn [d_R d_zero] in *.
  apply is_round_0 in R0, R1, R2. subst.
  unfold vcf_field, gt_of.
  destruct (m =? 0); [|destruct (m =? 1)]; vm_compute; discriminate.
Qed.

(** Squaring a lower bound of [exp x] with rounding down gives lower
    bounds of [exp (2 x)], [exp (4 x)], ... *)
Lemma exp_square_down (P : Z) (k : nat) :
  0 <= P ->
  forall (y : Z) (x : R),
    0 <= y ->
    (IZR y / IZR (2 ^ P) < exp x)%R ->
    (IZR (square_down P k y) / IZR (2 ^ P)
     < exp (x * IZR (2 ^ Z.of_nat k)))%R.
Proof.
  intros HP.
  assert (HD : 0 < 2 ^ P) by (apply Z.pow_pos_nonneg; lia).
  assert (HDR : (0 < IZR (2 ^ P))%R) by (apply IZR_lt; exact HD).
  induction k as [|k IH]; intros y x Hy H.
  - cbn [square_down Z.of_nat]. rewrite Z.pow_0_r, Rmult_1_r. exact H.
  - cbn [square_down].
    replace (x * IZR (2 ^ Z.of_nat (S k)))%R
      with ((x + x) * IZR (2 ^ Z.of_nat k))%R
      by (rewrite Nat2Z.inj_succ, Z.pow_succ_r, mult_IZR by lia; ring).
    apply IH; [apply Z.div_pos; nia|].
    rewrite exp_plus.
    assert (H0 : (0 <= IZR y / IZR (2 ^ P))%R).
    { apply Rmult_le_pos; [apply IZR_le; exact Hy|].
      left. apply Rinv_0_lt_compat. exact HDR. }
    assert (H1 : (IZR y / IZR (2 ^ P) * (IZR y / IZR (2 ^ P))
                  < exp x * exp x)%R)
      by (apply Rmult_le_0_lt_compat; assumption).
    apply Rle_lt_trans with (2 := H1).
    pose proof (Z.mul_div_le (y * y) (2 ^ P) HD) as Hfl.
    apply IZR_le in Hfl. rewrite !mult_IZR in Hfl.
    apply (Rmult_le_reg_r (IZR (2 ^ P))); [exact HDR|].
    unfold Rdiv. rewrite Rmult_assoc, Rinv_l by lra.
    replace (IZR y * / IZR (2 ^ P) * (IZR y * / IZR (2 ^ P))
             * IZR (2 ^ P))%R
      with (IZR y * IZR y * / IZR (2 ^ P))%R by (field; lra).
    apply (Rmult_le_reg_r (IZR (2 ^ P))); [exact HDR|].
    rewrite (Rmult_assoc (IZR y * IZR y)), Rinv_l by lra.
    lra.
Qed.

(** The double [log(10)] lies above [ln 10] (by about 2.2e-16): 60
    squarings of [1 + log(10) / 2^60 < exp (log(10) / 2^60)], carried out
    on 140 fractional bits, still give more than 10. *)
Lemma ln_10_below_log_10 : (ln 10 < d_R log_10)%R.
Proof.
  apply exp_lt_inv. rewrite exp_ln by lra.
  set (Y0 := 2 ^ 140 + 5184960683398422 * 2 ^ 29).
  set (x := (IZR 5184960683398422 / IZR (2 ^ 111))%R).
  assert (Hx : (0 < x)%R).
  { unfold x. apply Rmult_lt_0_compat; [apply IZR_lt; lia|].
    apply Rinv_0_lt_compat. apply IZR_lt. apply Z.pow_pos_nonneg; lia. }
  assert (H0 : (IZR Y0 / IZR (2 ^ 140) < exp x)%R).
  { apply Rle_lt_trans with (1 + x)%R; [|apply exp_ineq1; lra].
    right. unfold Y0, x. rewrite plus_IZR, mult_IZR.
    replace (2 ^ 140) with (2 ^ 111 * 2 ^ 29) by reflexivity.
    rewrite mult_IZR. field.
    split; apply not_0_IZR; apply Z.pow_nonzero; lia. }
  pose proof (@exp_square_down 140 60 ltac:(lia) Y0 x
                               ltac:(unfold Y0; lia) H0) as H.
  replace (d_R log_10) with (x * IZR (2 ^ Z.of_nat 60))%R.
  - apply Rle_lt_trans with (2 := H).
    assert (Hc : 10 * 2 ^ 140 <= square_down 140 60 Y0)
      by (vm_compute; discriminate).
    apply IZR_le in Hc. rewrite mult_IZR in Hc.
    assert (HDR : (0 < IZR (2 ^ 140))%R)
      by (apply IZR_lt; apply Z.pow_pos_nonneg; lia).
    apply (Rmult_le_reg_r (IZR (2 ^ 140))); [exact HDR|].
    unfold Rdiv. rewrite Rmult_assoc, Rinv_l by lra. lra.
  - unfold x. cbn [d_R log_10]. rewrite powerRZ_2_neg by lia.
    change (- (-51)) with 51. change (Z.of_nat 60) with 60.
    replace (2 ^ 111) with (2 ^ 51 * 2 ^ 60) by reflexivity.
    rewrite mult_IZR. field.
    split; apply not_0_IZR; apply Z.pow_nonzero; lia.
Qed.

Lemma ln_10_above_2 : (2 < ln 10)%R.
Proof.
  apply exp_lt_inv. rewrite exp_ln by lra.
  replace 2%R with (1 + 1)%R by ring. rewrite exp_plus.
  pose proof exp_le_3 as H3. pose proof (exp_pos 1) as H0.
  assert (exp 1 * exp 1 <= 3 * 3)%R
    by (apply Rmult_le_compat; lra).
  lra.
Qed.

(** For the likelihood [-log(10) / 4], [-10 L / ln 10] lies between 2.5
    and 3.5 and rounds to 3. *)
Lemma is_round_half_way (n : Z) :
  is_round (-10 * d_R (S754_finite true 5184960683398422 (-53)) / ln 10) n
  -> n = 3.
Proof.
  unfold is_round. intros H.
  pose proof ln_10_below_log_10 as Hb. pose proof ln_10_above_2 as H2.
  set (b := d_R log_10) in *.
  assert (Eb : b = (IZR 5184960683398422 / IZR (2 ^ 51))%R).
  { unfold b. cbn [d_R log_10]. rewrite powerRZ_2_neg by lia.
    reflexivity. }
  assert (EL : d_R (S754_finite true 5184960683398422 (-53))
               = (- (b / 4))%R).
  { rewrite Eb. cbn [d_R]. rewrite powerRZ_2_neg by lia.
    change (- (-53)) with 53.
    replace (2 ^ 53) with (2 ^ 51 * 4) by reflexivity.
    rewrite mult_IZR. field.
    apply not_0_IZR. apply Z.pow_nonzero; lia. }
  rewrite EL in H.
  assert (Hb2 : (b < 231 / 100)%R).
  { rewrite Eb. change (2 ^ 51) with 2251799813685248. lra. }
  set (r := (b / ln 10)%R).
  assert (Hr1 : (1 < r)%R).
  { unfold r. apply (Rmult_lt_reg_r (ln 10)); [lra|].
    unfold Rdiv. rewrite Rmult_assoc, Rinv_l by lra. lra. }
  assert (Hr2 : (r < 231 / 200)%R).
  { unfold r. apply (Rmult_lt_reg_r (ln 10)); [lra|].
    unfold Rdiv at 1. rewrite Rmult_assoc, Rinv_l by lra. lra. }
  replace (-10 * - (b / 4) / ln 10)%R with (5 / 2 * r)%R in H
    by (unfold r; field; lra).
  unfold Rabs in H. destruct (Rcase_abs (IZR n - 5 / 2 * r)) in H;
    (assert (2 < n) by (apply lt_IZR; lra));
    (assert (n < 4) by (apply lt_IZR; lra)); lia.
Qed.

(** The PL entries are rounded from the double product, not from
    [-10 L / ln 10]: for likelihoods of [-log(10) / 4] the product with
    [tmp] is exactly 2.5, which [%.0f] writes as 2, whereas
    [-10 L / ln 10] is above 2.5 and [round] gives 3. *)
Lemma csp_plp_str_vcf_rounds_the_product :
  csp_plp_str_vcf plp_half_way ""
  = Ret (0, "0/0:2:10:0:2,2,2:8,0,2,0,0") /\
  forall pls, round_PL (firstn 3 (plp_gl plp_half_way)) pls ->
              pls = ["3"; "3"; "3"].
Proof.
  split; [vm_compute; reflexivity|].
  intros pls (ns & Hns & ->).
  cbn [plp_half_way plp_gl repeat firstn] in Hns.
  inversion Hns as [|L0 n0 t0 ns0 R0 F0]; subst.
  inversion F0 as [|L1 n1 t1 ns1 R1 F1]; subst.
  inversion F1 as [|L2 n2 t2 ns2 R2 F2]; subst.
  inversion F2; subst.
  apply is_round_half_way in R0, R1, R2. subst. reflexivity.
Qed.

(** C5.  When [tc] is 0 the field is the missing-data marker, whatever the
    rest of the state.  Otherwise, for a state with 5 counts, 5 likelihood
    slots, [ngl] between 0 and 5 and likelihoods that are numbers, the
    field is [GT:AD:DP:OTH:PL:AD_all] with GT the first arg-max of the
    first three likelihoods, AD_all the five counts joined by commas, and
    PL the first [ngl] likelihoods each multiplied by the double
    [-10 / log(10)] and written by [%.0f]: a minus sign unless the sign
    bit of the likelihood is set, so that a likelihood of 0 gives [-0],
    then the magnitude of the product rounded to the nearest integer,
    halves to the even one, or [inf] for a product out of range. *)
Theorem csp_plp_str_vcf_layout (p : csp_plp_t) (s : string) :
  (plp_tc p = 0 -> csp_plp_str_vcf p s = Ret (0, s +++ missing_field)) /\
  (0 < plp_tc p ->
   List.length (plp_gl p) = 5%nat -> List.length (plp_bc p) = 5%nat ->
   0 <= plp_ngl p <= 5 -> gl_numbers p ->
   exists m pls,
     first_argmax3 (plp_gl p) m /\
     Forall2 PL_entry (firstn (Z.to_nat (plp_ngl p)) (plp_gl p)) pls /\
     csp_plp_str_vcf p s = Ret (0, s +++ vcf_field p m pls)).
Proof.
  split.
  - intros E. unfold csp_plp_str_vcf. rewrite E. reflexivity.
  - intros Htc Hgl Hbc Hngl [H3 Hn].
    destruct p as [bc tc ad dp oth qu qmat gl ngl hug].
    cbn [plp_tc plp_gl plp_bc plp_ngl] in *.
    five_cells gl Hgl. five_cells bc Hbc.
    rename a into g0, b into g1, c into g2, d into g3, e into g4.
    cbn [firstn] in H3.
    inversion H3 as [|? ? N0 H3a]; subst.
    inversion H3a as [|? ? N1 H3b]; subst.
    inversion H3b as [|? ? N2 _]; subst.
    destruct (@get_idx_of_max_first g0 g1 g2 [g3; g4] N0 N1 N2)
      as (m & Em & Hm).
    exists m,
      (map (fun L => fmt_0f (d_mul L vcf_tmp))
           (firstn (Z.to_nat ngl) [g0; g1; g2; g3; g4])).
    split; [exact Hm|]. split.
    + apply Forall2_map_of with (P := fun L => is_nan L = false);
        [exact fmt_0f_PL_entry|exact Hn].
    + unfold csp_plp_str_vcf, vcf_field.
      cbn [plp_tc plp_gl plp_bc plp_ngl plp_ad plp_dp plp_oth].
      destruct (Z.leb_spec tc 0); [lia|].
      rewrite Em. cbn [bind].
      rewrite gt_of_rd by (destruct Hm as [Hm _]; exact Hm).
      cbn [bind].
      assert (Hc : ngl = 0 \/ ngl = 1 \/ ngl = 2 \/ ngl = 3 \/ ngl = 4
                   \/ ngl = 5) by lia.
      destruct Hc as [->|[->|[->|[->|[->| ->]]]]];
        vcompute; rewrite ?append_assoc; reflexivity.
Qed.

Lemma csp_plp_str_vcf_layout_witness :
  csp_plp_str_vcf (plp_counts 0 0 0) ""
  = Ret (0, "" +++ missing_field) /\
  (exists m pls,
      first_argmax3 (plp_gl plp_likelihoods) m /\
      Forall2 PL_entry
              (firstn (Z.to_nat (plp_ngl plp_likelihoods))
                      (plp_gl plp_likelihoods)) pls /\
      csp_plp_str_vcf plp_likelihoods ""
      = Ret (0, "" +++ vcf_field plp_likelihoods m pls)) /\
  csp_plp_str_vcf plp_likelihoods ""
  = Ret (0, "1/0:2:10:0:15,5,87,0,-0:8,0,2,0,0").
Proof.
  split; [|split].
  - apply (csp_plp_str_vcf_layout (plp_counts 0 0 0) "").
    reflexivity.
  - apply (csp_plp_str_vcf_layout plp_likelihoods "");
      try (cbn; first [reflexivity | lia]).
    split; repeat constructor.
  - vm_compute. reflexivity.
Defined.

(** ** SNP list *)

Ltac zcases_plain :=
  repeat match goal with
         | |- context [(?x =? ?y)%Z] => destruct (Z.eqb_spec x y); try lia
         | |- context [(?x <=? ?y)%Z] => destruct (Z.leb_spec x y); try lia
         | |- context [(?x <? ?y)%Z] => destruct (Z.ltb_spec x y); try lia
         end.

Lemma strlen_cases (s : string) :
  (s = "" /\ strlen s = 0) \/
  (exists c, s = String c "" /\ strlen s = 1) \/
  1 < strlen s.
Proof.
  unfold strlen. destruct s as [|c [|c' s]]; cbn [String.length].
  - left. auto.
  - right; left. eauto.
  - right; right. lia.
Qed.

(** A turn of the loop keeps exactly the accepted records, and stores for
    them what the specification says. *)
Lemma snp_of_record_accepted (hdr : bcf_hdr_t) (rec : bcf1_t) :
  snp_of_record hdr rec
  = Ret (if accepted hdr rec then Some (stored_snp hdr rec) else None).
Proof.
  unfold snp_of_record, snp_alt_of_record, accepted, resolves, stored_snp,
    ref_of, alt_of, n_allele.
  destruct (bcf_hdr_id2name hdr (rid rec)) as [name|]; [|reflexivity].
  destruct rec as [r p al]. cbn [allele bcf_pos rid chr pos ref alt].
  destruct al as [|a0 [|a1 [|a2 al]]];
    rewrite ?len_cons; cbn [nth andb];
    change (Arr.len (@nil string)) with 0;
    try pose proof (len_nonneg al);
    try change (Arr.rd (a0 :: _) 0) with (Ret a0);
    try change (Arr.rd (a0 :: a1 :: _) 1) with (Ret a1);
    cbn [bind];
    try (destruct (strlen_cases a0) as [[-> E0]|[(c0 & -> & E0)|E0]];
         try rewrite E0);
    try (destruct (strlen_cases a1) as [[-> E1]|[(c1 & -> & E1)|E1]];
         try rewrite E1);
    try change (strlen "") with 0;
    zcases_plain; reflexivity.
Qed.

Lemma snp_loop_filter (hdr : bcf_hdr_t) (recs : list bcf1_t) :
  forall (pl : csp_snplist_t) (n : Z),
    snp_loop hdr recs pl n
    = Ret (pl ++ map (stored_snp hdr) (filter (accepted hdr) recs),
           n + Arr.len (filter (accepted hdr) recs)).
Proof.
  induction recs as [|rec rest IH]; intros pl n; cbn [snp_loop filter].
  - cbn [map]. rewrite app_nil_r. change (Arr.len (@nil bcf1_t)) with 0.
    rewrite Z.add_0_r. reflexivity.
  - rewrite snp_of_record_accepted. cbn [bind].
    destruct (accepted hdr rec); rewrite IH.
    + cbn [map]. rewrite len_cons, <- app_assoc. cbn [app].
      do 2 f_equal. lia.
    + reflexivity.
Qed.

(** C6.  Once the header is read, [get_snplist_from_vcf] appends to the
    list, in input order, the SNPs of exactly the accepted records
    (chromosome resolved, ref and alt of length at most 1 with length 0
    stored as 0, at most two alleles), goes on after every rejected record,
    and returns the number of SNPs it has added. *)
Theorem get_snplist_from_vcf_accepted
        (f : vcf_file) (hdr : bcf_hdr_t) (pl : csp_snplist_t)
        (print_skip : Z) :
  vcf_hdr f = Some hdr ->
  let kept := filter (accepted hdr) (vcf_recs f) in
  get_snplist_from_vcf (Some f) (Some pl) print_skip
  = Ret (Arr.len kept, Some (pl ++ map (stored_snp hdr) kept),
         if vcf_end f =? -1 then 0 else -1).
Proof.
  intros Hhdr kept. unfold get_snplist_from_vcf. rewrite Hhdr.
  rewrite snp_loop_filter. cbn [bind]. fold kept.
  rewrite Z.add_0_l. destruct (vcf_end f =? -1); reflexivity.
Qed.

Lemma get_snplist_from_vcf_accepted_witness :
  get_snplist_from_vcf (Some vcf_five_records) (Some []) 0
  = Ret (2,
         Some [ {| chr := "chr1"; pos := 99; ref := 65; alt := 71 |};
                {| chr := "chr2"; pos := 41; ref := 0; alt := 0 |} ],
         0).
Proof.
  exact (@get_snplist_from_vcf_accepted vcf_five_records ["chr1"; "chr2"]
           [] 0 eq_refl).
Defined.

(** * Further properties *)

(** ** Quality vector *)

Section QualVectorMore.

Local Open Scope R_scope.

Lemma err_prob_lt_1 (bq : R) : 0 < bq -> Rpower 0.1 (bq / 10) < 1.
Proof.
  intros H. rewrite err_prob_exp, <- exp_0.
  apply exp_increasing. pose proof ln_10_pos. nra.
Qed.

Lemma ln_neg (x : R) : 0 < x -> x < 1 -> ln x < 0.
Proof. intros H0 H1. rewrite <- ln_1. apply ln_increasing; assumption. Qed.

End QualVectorMore.

(** X1.  [get_qual_vector] saturates: a quality at or above the cap gives
    the vector of the cap, a quality at or below the floor gives the vector
    of the floor, and with a floor above the cap every quality gives the
    vector of the floor. *)
Theorem get_qual_vector_saturates (qual cap_bq min_bq : R) (rv : list R) :
  ((min_bq <= cap_bq)%R -> (cap_bq <= qual)%R ->
   get_qual_vector qual cap_bq min_bq rv
   = get_qual_vector cap_bq cap_bq min_bq rv) /\
  ((qual <= min_bq)%R ->
   get_qual_vector qual cap_bq min_bq rv
   = get_qual_vector min_bq cap_bq min_bq rv) /\
  ((cap_bq < min_bq)%R ->
   get_qual_vector qual cap_bq min_bq rv
   = get_qual_vector min_bq cap_bq min_bq rv).
Proof.
  assert (Hclamp : forall q1 q2 : R,
             Rmax (Rmin cap_bq q1) min_bq = Rmax (Rmin cap_bq q2) min_bq ->
             get_qual_vector q1 cap_bq min_bq rv
             = get_qual_vector q2 cap_bq min_bq rv).
  { intros q1 q2 E. unfold get_qual_vector, max2, min2. rewrite E.
    reflexivity. }
  split; [|split]; intros; apply Hclamp; unfold Rmax, Rmin;
    repeat match goal with
           | |- context [Rle_dec ?a ?b] => destruct (Rle_dec a b)
           | H : context [Rle_dec ?a ?b] |- _ => destruct (Rle_dec a b)
           end; lra.
Qed.

Lemma get_qual_vector_saturates_witness :
  get_qual_vector 60 45 0.25 [0; 0; 0; 0]%R
  = get_qual_vector 45 45 0.25 [0; 0; 0; 0]%R /\
  get_qual_vector 0 45 0.25 [0; 0; 0; 0]%R
  = get_qual_vector 0.25 45 0.25 [0; 0; 0; 0]%R /\
  get_qual_vector 30 10 20 [0; 0; 0; 0]%R
  = get_qual_vector 20 10 20 [0; 0; 0; 0]%R.
Proof.
  split; [|split].
  - destruct (get_qual_vector_saturates 60 45 0.25 [0; 0; 0; 0]%R)
      as (H & _ & _).
    apply H; lra.
  - destruct (get_qual_vector_saturates 0 45 0.25 [0; 0; 0; 0]%R)
      as (_ & H & _).
    apply H; lra.
  - destruct (get_qual_vector_saturates 30 10 20 [0; 0; 0; 0]%R)
      as (_ & _ & H).
    apply H; lra.
Defined.

(** X2.  For a clamped quality above 0 the four entries are negative
    (logarithms of probabilities below 1), entries 0 and 3 are the logs of
    complementary probabilities, and entries 1 and 2 are the logs of the
    3:1 and 1:1 mixtures of a correct call with a miscall to one given
    base. *)
Theorem get_qual_vector_log_probabilities
        (qual cap_bq min_bq : R) (rv : list R) :
  (0 < max2 (min2 cap_bq qual) min_bq)%R -> List.length rv = 4%nat ->
  exists e0 e1 e2 e3 : R,
    get_qual_vector qual cap_bq min_bq rv = Ret ([e0; e1; e2; e3], 0%Z) /\
    (e0 < 0 /\ e1 < 0 /\ e2 < 0 /\ e3 < 0)%R /\
    (exp e0 + exp e3 = 1)%R /\
    (exp e1 = 3 / 4 * exp e0 + 1 / 4 * (exp e3 / 3))%R /\
    (exp e2 = 1 / 2 * exp e0 + 1 / 2 * (exp e3 / 3))%R.
Proof.
  intros Hbq Hrv. four_cells rv Hrv.
  unfold get_qual_vector.
  set (p := Rpower 0.1 (max2 (min2 cap_bq qual) min_bq / 10)).
  assert (Hp0 : (0 < p)%R) by apply err_prob_pos.
  assert (Hp1 : (p < 1)%R) by (apply err_prob_lt_1; exact Hbq).
  do 4 eexists. split; [reflexivity|].
  split; [repeat split; apply ln_neg; lra|].
  rewrite !exp_ln by lra. repeat split; lra.
Qed.

Lemma get_qual_vector_log_probabilities_witness :
  exists e0 e1 e2 e3 : R,
    get_qual_vector 30 45 0.25 [0; 0; 0; 0]%R = Ret ([e0; e1; e2; e3], 0%Z) /\
    (e0 < 0 /\ e1 < 0 /\ e2 < 0 /\ e3 < 0)%R /\
    (exp e0 + exp e3 = 1)%R /\
    (exp e1 = 3 / 4 * exp e0 + 1 / 4 * (exp e3 / 3))%R /\
    (exp e2 = 1 / 2 * exp e0 + 1 / 2 * (exp e3 / 3))%R.
Proof.
  apply (@get_qual_vector_log_probabilities 30 45 0.25 [0; 0; 0; 0]%R);
    [|reflexivity].
  unfold max2, min2.
  apply Rlt_le_trans with (r2 := 0.25%R); [lra|apply Rmax_r].
Defined.

(** X3.  [get_qual_vector] does not check the size of [rv]: it stays
    within bounds exactly when [rv] has at least 4 entries, and then it
    returns 0, rewrites entries 0..3 and leaves the length and every later
    entry as they were. *)
Theorem get_qual_vector_buffer (qual cap_bq min_bq : R) (rv : list R) :
  (is_ret (get_qual_vector qual cap_bq min_bq rv) = true
   <-> (4 <= List.length rv)%nat) /\
  (forall rv' r,
      get_qual_vector qual cap_bq min_bq rv = Ret (rv', r) ->
      r = 0 /\ List.length rv' = List.length rv /\
      firstn 4 rv' = qual_entries (err_prob qual cap_bq min_bq) /\
      skipn 4 rv' = skipn 4 rv).
Proof.
  unfold get_qual_vector, err_prob, qual_entries.
  set (p := Rpower 0.1 (max2 (min2 cap_bq qual) min_bq / 10)).
  destruct rv as [|x0 [|x1 [|x2 [|x3 rest]]]];
    try (split; [split; [intros H; discriminate H | cbn; lia]
                |intros rv' r H; discriminate H]).
  change 0%Z with (Z.of_nat 0); change 1%Z with (Z.of_nat 1);
    change 2%Z with (Z.of_nat 2); change 3%Z with (Z.of_nat 3).
  repeat (rewrite wr_of_nat by (cbn [List.length Arr.upd]; lia);
          cbn [bind Arr.upd]).
  split; [split; [cbn; lia | reflexivity]|].
  intros rv' r [= <- <-]. repeat split.
Qed.

Lemma get_qual_vector_buffer_witness :
  exists rv',
    get_qual_vector 30 45 0.25 [1; 2; 3; 4; 5; 6]%R = Ret (rv', 0) /\
    List.length rv' = 6%nat /\ skipn 4 rv' = [5; 6]%R.
Proof.
  destruct (get_qual_vector_buffer 30 45 0.25 [1; 2; 3; 4; 5; 6]%R)
    as [_ H].
  eexists. split; [reflexivity|].
  split; eapply H; reflexivity.
Defined.

(** ** Genotype likelihoods *)

(** Name the cells of the three arrays and list the 25 pairs of valid
    indices. *)
Ltac geno_cells Hqm Hbc Hgl :=
  let a0 := fresh "a0" in
  destruct (qmat_cells Hqm) as
    (a0 & ?a1 & ?a2 & ?a3 & ?c0 & ?c1 & ?c2 & ?c3 & ?g0 & ?g1 & ?g2 & ?g3
     & ?t0 & ?t1 & ?t2 & ?t3 & ?n0 & ?n1 & ?n2 & ?n3 & ->);
  match type of Hbc with List.length ?bc = _ => five_cells bc Hbc end;
  match type of Hgl with List.length ?gl = _ => five_cells gl Hgl end.

Ltac valid_range H :=
  unfold valid_idx in H; apply andb_prop in H;
  let H0 := fresh "Hlo" in let H4 := fresh "Hhi" in
  destruct H as [H0 H4]; apply Z.leb_le in H0, H4.

(** With valid indices, equal or not, the call returns 5 slots, the count
    3 or 5 and the value 0. *)
Lemma qual_matrix_to_geno_returns
      (qm : list (list R)) (bc : list Z) (ref_idx alt_idx db : Z)
      (gl : list R) :
  qmat_shape qm -> List.length bc = 5%nat -> List.length gl = 5%nat ->
  valid_idx ref_idx = true -> valid_idx alt_idx = true ->
  exists g, qual_matrix_to_geno qm bc ref_idx alt_idx db gl
            = Ret (g, if (db =? 0)%Z then 3%Z else 5%Z, 0%Z)
            /\ List.length g = 5%nat.
Proof.
  intros Hqm Hbc Hgl Hr Ha.
  geno_cells Hqm Hbc Hgl. valid_range Hr. valid_range Ha.
  base_or_outside ref_idx; try lia; base_or_outside alt_idx; try lia;
    unfold qual_matrix_to_geno; destruct (Z.eqb_spec db 0); rcompute;
    eexists; split; reflexivity.
Qed.

Lemma csp_infer_allele_valid (bc : list Z) :
  List.length bc = 5%nat ->
  exists r a, csp_infer_allele bc = Ret (r, a) /\
              valid_idx r = true /\ valid_idx a = true /\ r <> a.
Proof.
  intros Hlen. five_cells bc Hlen.
  unfold csp_infer_allele, infer_step, for_range, Arr.rd; simpl.
  repeat match goal with
         | |- context [?x <? ?y] => destruct (Z.ltb_spec x y); simpl
         | |- context [?x >? ?y] =>
             rewrite (Z.gtb_ltb x y); destruct (Z.ltb_spec y x); simpl
         end;
    do 2 eexists; repeat split; discriminate.
Qed.

(** X4.  On a 5-by-4 matrix, 5 counts and 5 likelihood slots,
    [qual_matrix_to_geno] is free of undefined behaviour exactly when both
    indices lie in 0..4; equal indices are included. *)
Theorem qual_matrix_to_geno_defined_iff
        (qm : list (list R)) (bc : list Z) (ref_idx alt_idx db : Z)
        (gl : list R) :
  qmat_shape qm -> List.length bc = 5%nat -> List.length gl = 5%nat ->
  (is_ret (qual_matrix_to_geno qm bc ref_idx alt_idx db gl) = true
   <-> valid_idx ref_idx = true /\ valid_idx alt_idx = true).
Proof.
  intros Hqm Hbc Hgl. split.
  - unfold qual_matrix_to_geno.
    destruct (fill_other_idx ref_idx alt_idx) as [[other_idx noth]|];
      [|discriminate].
    cbn [bind]. intros H.
    destruct (valid_idx ref_idx) eqn:Er.
    + destruct (valid_idx alt_idx) eqn:Ea; [auto|]. exfalso.
      destruct (Arr.rd bc ref_idx); [|discriminate]. cbn [bind] in H.
      rewrite (@rd_outside _ bc alt_idx) in H; [discriminate|].
      unfold valid_idx in Ea. unfold Arr.len. rewrite Hbc.
      apply andb_false_iff in Ea. destruct Ea as [Ea|Ea];
        [apply Z.leb_gt in Ea | apply Z.leb_gt in Ea]; lia.
    + exfalso. rewrite (@rd_outside _ bc ref_idx) in H; [discriminate|].
      unfold valid_idx in Er. unfold Arr.len. rewrite Hbc.
      apply andb_false_iff in Er. destruct Er as [Er|Er];
        [apply Z.leb_gt in Er | apply Z.leb_gt in Er]; lia.
  - intros [Hr Ha].
    destruct (@qual_matrix_to_geno_returns qm bc ref_idx alt_idx db gl)
      as (g & -> & _); auto.
Qed.

Lemma qual_matrix_to_geno_defined_iff_witness :
  is_ret (qual_matrix_to_geno (repeat (repeat 0%R 4) 5) [8; 0; 2; 0; 0]
                              0 0 1 (repeat 0%R 5)) = true /\
  is_ret (qual_matrix_to_geno (repeat (repeat 0%R 4) 5) [8; 0; 2; 0; 0]
                              0 5 1 (repeat 0%R 5)) = false.
Proof.
  split.
  - apply (@qual_matrix_to_geno_defined_iff
             (repeat (repeat 0%R 4) 5) [8; 0; 2; 0; 0] 0 0 1 (repeat 0%R 5));
      try reflexivity; [split; [reflexivity|repeat constructor]|].
    split; reflexivity.
  - apply not_true_is_false. intros H.
    apply (@qual_matrix_to_geno_defined_iff
             (repeat (repeat 0%R 4) 5) [8; 0; 2; 0; 0] 0 5 1 (repeat 0%R 5))
      in H; try reflexivity; [|split; [reflexivity|repeat constructor]].
    destruct H as [_ H]. discriminate H.
Defined.

(** X5.  Trading ref for alt mirrors the likelihoods: hom-ref and hom-alt
    change places, so do the two doublet classes, and the heterozygous
    likelihood stays.  With equal indices this makes hom-ref and hom-alt
    (and the two doublet classes) the same number. *)
Theorem qual_matrix_to_geno_mirror
        (qm : list (list R)) (bc : list Z) (ref_idx alt_idx db : Z)
        (gl : list R) :
  qmat_shape qm -> List.length bc = 5%nat -> List.length gl = 5%nat ->
  valid_idx ref_idx = true -> valid_idx alt_idx = true ->
  exists g g' n,
    qual_matrix_to_geno qm bc ref_idx alt_idx db gl = Ret (g, n, 0%Z) /\
    qual_matrix_to_geno qm bc alt_idx ref_idx db gl = Ret (g', n, 0%Z) /\
    forall i, (i < Z.to_nat n)%nat ->
              nth i g' 0%R = nth (mirror_class i) g 0%R.
Proof.
  intros Hqm Hbc Hgl Hr Ha.
  geno_cells Hqm Hbc Hgl. valid_range Hr. valid_range Ha.
  base_or_outside ref_idx; try lia; base_or_outside alt_idx; try lia;
    unfold qual_matrix_to_geno; destruct (Z.eqb_spec db 0); rcompute;
    do 3 eexists; (split; [reflexivity|split; [reflexivity|]]);
    intros i Hi;
    (assert (Hc : (i = 0 \/ i = 1 \/ i = 2 \/ i = 3 \/ i = 4)%nat) by lia);
    destruct Hc as [->|[->|[->|[->| ->]]]];
    first [exfalso; lia | rcompute; ring].
Qed.

Lemma qual_matrix_to_geno_mirror_witness :
  exists g g' n,
    qual_matrix_to_geno [[-1; -2; -3; -9]; [0; 0; 0; 0]; [-8; -2; -3; -1];
                         [0; 0; 0; 0]; [0; 0; 0; 0]]%R
                        [8; 0; 2; 0; 0] 0 2 1 (repeat 0%R 5)
    = Ret (g, n, 0%Z) /\
    qual_matrix_to_geno [[-1; -2; -3; -9]; [0; 0; 0; 0]; [-8; -2; -3; -1];
                         [0; 0; 0; 0]; [0; 0; 0; 0]]%R
                        [8; 0; 2; 0; 0] 2 0 1 (repeat 0%R 5)
    = Ret (g', n, 0%Z) /\
    forall i, (i < Z.to_nat n)%nat ->
              nth i g' 0%R = nth (mirror_class i) g 0%R.
Proof.
  apply (@qual_matrix_to_geno_mirror
           [[-1; -2; -3; -9]; [0; 0; 0; 0]; [-8; -2; -3; -1];
            [0; 0; 0; 0]; [0; 0; 0; 0]]%R
           [8; 0; 2; 0; 0] 0 2 1 (repeat 0%R 5));
    try reflexivity.
  split; [reflexivity|repeat constructor].
Defined.

(** X6.  The reads of the other bases move every likelihood by the same
    amount: for two inputs with the same ref and alt rows and counts, each
    likelihood differs by the difference of the two 'other' contributions,
    so the differences between genotype classes do not depend on the other
    bases. *)
Theorem qual_matrix_to_geno_other_bases_shift
        (qm qm' : list (list R)) (bc bc' : list Z) (ref_idx alt_idx db : Z)
        (gl gl' : list R) :
  qmat_shape qm -> qmat_shape qm' ->
  List.length bc = 5%nat -> List.length bc' = 5%nat ->
  List.length gl = 5%nat -> List.length gl' = 5%nat ->
  valid_idx ref_idx = true -> valid_idx alt_idx = true ->
  same_ref_alt qm qm' bc bc' ref_idx alt_idx ->
  exists g g' n,
    qual_matrix_to_geno qm bc ref_idx alt_idx db gl = Ret (g, n, 0%Z) /\
    qual_matrix_to_geno qm' bc' ref_idx alt_idx db gl' = Ret (g', n, 0%Z) /\
    forall i, (i < Z.to_nat n)%nat ->
              (nth i g' 0 - nth i g 0
               = other_contrib qm' bc' ref_idx alt_idx
                 - other_contrib qm bc ref_idx alt_idx)%R.
Proof.
  intros Hqm Hqm' Hbc Hbc' Hgl Hgl' Hr Ha (E1 & E2 & E3 & E4).
  destruct (qmat_cells Hqm) as
    (a0 & a1 & a2 & a3 & c0 & c1 & c2 & c3 & g0 & g1 & g2 & g3
     & t0 & t1 & t2 & t3 & n0 & n1 & n2 & n3 & ->).
  destruct (qmat_cells Hqm') as
    (a0' & a1' & a2' & a3' & c0' & c1' & c2' & c3' & g0' & g1' & g2' & g3'
     & t0' & t1' & t2' & t3' & n0' & n1' & n2' & n3' & ->).
  five_cells bc Hbc. five_cells bc' Hbc'.
  five_cells gl Hgl. five_cells gl' Hgl'.
  valid_range Hr. valid_range Ha.
  assert (E23 : (2.0 / 3 = 2 / 3)%R) by lra.
  base_or_outside ref_idx; try lia; base_or_outside alt_idx; try lia;
    cbv [Z.to_nat Pos.to_nat Pos.iter_op Nat.add nth] in E1, E2, E3, E4;
    injection E1 as -> -> -> ->; try injection E2 as -> -> -> ->;
    subst;
    unfold qual_matrix_to_geno, other_contrib, Q, B; rewrite E23;
    destruct (Z.eqb_spec db 0); rcompute;
    do 3 eexists; (split; [reflexivity|split; [reflexivity|]]);
    intros i Hi;
    (assert (Hc : (i = 0 \/ i = 1 \/ i = 2 \/ i = 3 \/ i = 4)%nat) by lia);
    destruct Hc as [->|[->|[->|[->| ->]]]];
    first [exfalso; lia | rcompute; ring].
Qed.

Lemma qual_matrix_to_geno_other_bases_shift_witness :
  let qm := [[-1; -2; -3; -9]; [0; 0; 0; 0]; [-8; -2; -3; -1];
             [0; 0; 0; 0]; [0; 0; 0; 0]]%R in
  let qm' := [[-1; -2; -3; -9]; [-4; -3; -2; -1]; [-8; -2; -3; -1];
              [0; 0; 0; 0]; [0; 0; 0; 0]]%R in
  let bc := [8; 0; 2; 0; 0]%Z in
  let bc' := [8; 1; 2; 0; 0]%Z in
  exists g g' n,
    qual_matrix_to_geno qm bc 0 2 0 (repeat 0%R 5) = Ret (g, n, 0%Z) /\
    qual_matrix_to_geno qm' bc' 0 2 0 (repeat 0%R 5) = Ret (g', n, 0%Z) /\
    forall i, (i < Z.to_nat n)%nat ->
      (nth i g' 0 - nth i g 0
       = other_contrib qm' bc' 0 2 - other_contrib qm bc 0 2)%R.
Proof.
  apply (@qual_matrix_to_geno_other_bases_shift
           [[-1; -2; -3; -9]; [0; 0; 0; 0]; [-8; -2; -3; -1];
            [0; 0; 0; 0]; [0; 0; 0; 0]]%R
           [[-1; -2; -3; -9]; [-4; -3; -2; -1]; [-8; -2; -3; -1];
            [0; 0; 0; 0]; [0; 0; 0; 0]]%R
           [8; 0; 2; 0; 0]%Z [8; 1; 2; 0; 0]%Z 0%Z 2%Z 0%Z
           (repeat 0%R 5) (repeat 0%R 5));
    try reflexivity;
    try (split; [reflexivity|repeat constructor]).
Defined.

(** X7.  The alleles that [csp_infer_allele] infers are always fit for
    [qual_matrix_to_geno]: on any 5 counts they are two distinct bases, the
    call is free of undefined behaviour and exactly three bases are
    'other'. *)
Theorem inferred_alleles_are_fit
        (qm : list (list R)) (bc : list Z) (db : Z) (gl : list R) :
  qmat_shape qm -> List.length bc = 5%nat -> List.length gl = 5%nat ->
  exists r a g,
    csp_infer_allele bc = Ret (r, a) /\ r <> a /\
    qual_matrix_to_geno qm bc r a db gl
    = Ret (g, if (db =? 0)%Z then 3%Z else 5%Z, 0%Z) /\
    List.length (other_bases r a) = 3%nat.
Proof.
  intros Hqm Hbc Hgl.
  destruct (csp_infer_allele_valid bc Hbc) as (r & a & Ei & Hr & Ha & Hne).
  destruct (@qual_matrix_to_geno_returns qm bc r a db gl)
    as (g & Eg & _); auto.
  exists r, a, g. repeat split; auto.
  valid_range Hr. valid_range Ha. unfold other_bases.
  base_or_outside r; try lia; base_or_outside a; try lia; reflexivity.
Qed.

Lemma inferred_alleles_are_fit_witness :
  exists r a g,
    csp_infer_allele [4; 4; 0; 9; 0] = Ret (r, a) /\ r <> a /\
    qual_matrix_to_geno (repeat (repeat 0%R 4) 5) [4; 4; 0; 9; 0] r a 1
                        (repeat 0%R 5)
    = Ret (g, 5%Z, 0%Z) /\
    List.length (other_bases r a) = 3%nat.
Proof.
  apply (@inferred_alleles_are_fit (repeat (repeat 0%R 4) 5)
           [4; 4; 0; 9; 0] 1 (repeat 0%R 5)); try reflexivity.
  split; [reflexivity|repeat constructor].
Defined.

(** X8.  [csp_infer_allele] reads [bc[0..4]] and nothing else: it is free
    of undefined behaviour exactly when the vector has at least 5 entries,
    and entries after the fifth never change its result. *)
Theorem csp_infer_allele_reads_five (bc : list Z) :
  (is_ret (csp_infer_allele bc) = true <-> (5 <= List.length bc)%nat) /\
  csp_infer_allele bc = csp_infer_allele (firstn 5 bc).
Proof.
  destruct bc as [|a [|b [|c [|d [|e rest]]]]];
    unfold csp_infer_allele, infer_step, for_range, Arr.rd; simpl;
    repeat match goal with
           | |- context [?x <? ?y] => destruct (Z.ltb_spec x y); simpl
           | |- context [?x >? ?y] =>
               rewrite (Z.gtb_ltb x y); destruct (Z.ltb_spec y x); simpl
           end;
    (split; [split; [intros Hret; try discriminate Hret; lia
                    |intros Hlen; try lia; reflexivity]
            |reflexivity]).
Qed.

(** ** VCF and matrix output of all sample groups *)

Lemma append_nil_r (s : string) : s +++ "" = s.
Proof. induction s as [|c s IH]; cbn; [|rewrite IH]; reflexivity. Qed.

(** A loop with a turn that faults on every state the loop can reach,
    faults. *)
Lemma for_range_faults_at {St : Type} (P : St -> Prop)
      (body : Z -> St -> res St) (k : nat) :
  (forall i s s', P s -> body i s = Ret s' -> P s') ->
  forall (n : nat) (lo : Z) (s : St),
    (k < n)%nat -> P s ->
    (forall s', P s' -> body (lo + Z.of_nat k) s' = UB) ->
    for_range n lo body s = UB.
Proof.
  intros Hkeep.
  induction k as [|k IH]; intros n lo s Hk Hs Hbad;
    (destruct n as [|n]; [lia|]); cbn [for_range].
  - replace lo with (lo + Z.of_nat 0) by (cbn; lia).
    rewrite Hbad by assumption. reflexivity.
  - destruct (body lo s) as [s1|] eqn:E; [|reflexivity]. cbn [bind].
    apply IH; [lia|eauto|]. intros s' Hs'.
    replace (lo + 1 + Z.of_nat k) with (lo + Z.of_nat (S k)) by lia.
    apply Hbad. assumption.
Qed.

Lemma csp_plp_str_vcf_missing (p : csp_plp_t) (s : string) :
  plp_tc p = 0 -> csp_plp_str_vcf p s = Ret (0, s +++ missing_field).
Proof. intros E. unfold csp_plp_str_vcf. rewrite E. reflexivity. Qed.

(** [csp_plp_str_vcf] only appends, and what it appends does not depend
    on the buffer. *)
Lemma csp_plp_str_vcf_text (p : csp_plp_t) (s : string) :
  plp_fit p -> csp_plp_str_vcf p s = Ret (0, s +++ vcf_text p).
Proof.
  intros (Hgl & Hbc & Hngl). unfold vcf_text.
  destruct p as [bc tc ad dp oth qu qmat gl ngl hug].
  cbn [plp_tc plp_gl plp_bc plp_ngl] in *.
  five_cells gl Hgl. five_cells bc Hbc.
  rename a into g0, b into g1, c into g2, d into g3, e into g4.
  unfold csp_plp_str_vcf.
  cbn [plp_tc plp_gl plp_bc plp_ngl plp_ad plp_dp plp_oth].
  destruct (Z.leb_spec tc 0); [reflexivity|].
  unfold get_idx_of_max, idx_of_max_step.
  assert (Hn : ngl = 0 \/ ngl = 1 \/ ngl = 2 \/ ngl = 3 \/ ngl = 4
               \/ ngl = 5) by lia.
  destruct Hn as [->|[->|[->|[->|[->| ->]]]]];
    vcompute;
    repeat match goal with
           | |- context [d_gt ?x ?y] => destruct (d_gt x y)
           end;
    rewrite ?append_assoc; reflexivity.
Qed.

(** X9.  [csp_plp_str_vcf] only appends to its buffer: for a pileup with
    5 counts, 5 likelihood slots and [ngl] in 0..5 it returns 0 and the
    buffer followed by a text that depends on the pileup alone.  With reads
    present and [ngl] above 5 the copy loop leaves the 5-entry local
    array. *)
Theorem csp_plp_str_vcf_appends (p : csp_plp_t) :
  (plp_fit p ->
   forall s, csp_plp_str_vcf p s = Ret (0, s +++ vcf_text p)) /\
  (0 < plp_tc p -> 5 < plp_ngl p ->
   forall s, csp_plp_str_vcf p s = UB).
Proof.
  split.
  - intros Hfit s. apply csp_plp_str_vcf_text. exact Hfit.
  - intros Htc Hngl s. unfold csp_plp_str_vcf.
    destruct (Z.leb_spec (plp_tc p) 0); [lia|].
    destruct (get_idx_of_max (plp_gl p) 3) as [m|]; [|reflexivity].
    cbn [bind]. destruct (Arr.rd gt m) as [g|]; [|reflexivity].
    cbn [bind].
    rewrite (@for_range_faults_at _ (fun gl => List.length gl = 5%nat)
               _ 5%nat);
      [reflexivity| |lia|reflexivity|].
    + intros i gl gl' Hlen. unfold scale_step, Arr.wr.
      destruct (Arr.rd (plp_gl p) i); [|discriminate]. cbn [bind].
      destruct (Arr.in_bounds gl i); [|discriminate].
      intros [= <-]. rewrite length_upd. exact Hlen.
    + intros gl Hlen. unfold scale_step.
      destruct (Arr.rd (plp_gl p) (0 + Z.of_nat 5)); [|reflexivity].
      cbn [bind]. unfold Arr.wr, Arr.in_bounds, Arr.len. rewrite Hlen.
      reflexivity.
Qed.

Lemma csp_plp_str_vcf_appends_witness :
  csp_plp_str_vcf (plp_counts 2 10 0) "chr1"
  = Ret (0, "chr1" +++ vcf_text (plp_counts 2 10 0)) /\
  csp_plp_str_vcf
    {| plp_bc := [8; 0; 2; 0; 0];
       plp_tc := 10; plp_ad := 2; plp_dp := 10; plp_oth := 0;
       plp_qu := []; plp_qmat := []; plp_gl := repeat d_zero 5;
       plp_ngl := 6; plp_hug := None |} "chr1" = UB.
Proof.
  split.
  - apply (csp_plp_str_vcf_appends (plp_counts 2 10 0)).
    repeat split; cbn; lia.
  - apply (csp_plp_str_vcf_appends
             {| plp_bc := [8; 0; 2; 0; 0];
                plp_tc := 10; plp_ad := 2; plp_dp := 10; plp_oth := 0;
                plp_qu := []; plp_qmat := []; plp_gl := repeat d_zero 5;
                plp_ngl := 6; plp_hug := None |}); cbn; lia.
Defined.

Lemma sg_ready_at (m : csp_mplp_t) (pre suf : list csp_plp_t)
      (plp : csp_plp_t) :
  sg_ready m (pre ++ plp :: suf) ->
  sg_plp m (Arr.len pre) = Ret plp.
Proof.
  intros [_ H]. unfold Arr.len. apply H.
  rewrite nth_error_app2 by lia. rewrite Nat.sub_diag. reflexivity.
Qed.

(** The loop of [csp_mplp_str_vcf] from any sample group on. *)
Lemma str_vcf_loop_ready (m : csp_mplp_t) (text : csp_plp_t -> string)
      (suf : list csp_plp_t) :
  forall (pre : list csp_plp_t) (s : string),
    sg_ready m (pre ++ suf) ->
    (forall p t, In p suf -> csp_plp_str_vcf p t = Ret (0, t +++ text p)) ->
    str_vcf_loop m (List.length suf) (Arr.len pre) s
    = Ret (0, s +++ concat_str (map (fun p => tab +++ text p) suf)).
Proof.
  induction suf as [|plp suf IH]; intros pre s Hready Htext;
    cbn [str_vcf_loop List.length map concat_str].
  - rewrite append_nil_r. reflexivity.
  - rewrite (sg_ready_at _ _ _ Hready). cbn [bind].
    rewrite Htext by (left; reflexivity). cbn [bind Z.ltb Z.compare].
    replace (Arr.len pre + 1) with (Arr.len (pre ++ [plp]))
      by (rewrite len_app; reflexivity).
    rewrite IH.
    + rewrite !append_assoc. reflexivity.
    + rewrite <- app_assoc. exact Hready.
    + intros p t Hp. apply Htext. right. exact Hp.
Qed.

(** X10.  When every sample group holds a pileup of the declared sizes,
    [csp_mplp_str_vcf] returns 0 and appends, in the order of the sample
    groups, a tab and the field of each group. *)
Theorem csp_mplp_str_vcf_fields (m : csp_mplp_t) (plps : list csp_plp_t)
        (s : string) :
  sg_ready m plps -> Forall plp_fit plps ->
  csp_mplp_str_vcf m s
  = Ret (0, s +++ concat_str (map (fun p => tab +++ vcf_text p) plps)).
Proof.
  intros Hready Hfit. unfold csp_mplp_str_vcf.
  destruct Hready as [Hn Hat]. rewrite Hn. unfold Arr.len.
  rewrite Nat2Z.id.
  apply (@str_vcf_loop_ready m vcf_text plps []).
  - split; assumption.
  - intros p t Hp. apply csp_plp_str_vcf_text.
    rewrite Forall_forall in Hfit. auto.
Qed.

Lemma mplp_two_groups_ready :
  sg_ready mplp_two_groups [plp_counts 3 5 0; plp_counts 0 7 1].
Proof.
  split; [reflexivity|].
  intros [|[|i]] plp; cbn [nth_error]; intros E.
  - injection E as <-. reflexivity.
  - injection E as <-. reflexivity.
  - destruct i; discriminate E.
Qed.

Lemma csp_mplp_str_vcf_fields_witness :
  csp_mplp_str_vcf mplp_two_groups ""
  = Ret (0, "" +++ concat_str
                     (map (fun p => tab +++ vcf_text p)
                          [plp_counts 3 5 0; plp_counts 0 7 1])).
Proof.
  apply (@csp_mplp_str_vcf_fields mplp_two_groups
           [plp_counts 3 5 0; plp_counts 0 7 1] "").
  - exact mplp_two_groups_ready.
  - repeat constructor; cbn; lia.
Defined.

(** A matrix file after the lines of the values [vals] of sample groups
    [i], [i+1], ... *)
Lemma to_mtx_put_lines (f : jfile_t) (idx i v : Z) (vals : list Z) :
  jf_text (to_mtx_put f idx i v)
  +++ mtx_lines (is_tmp (to_mtx_put f idx i v)) idx (i + 1) vals
  = jf_text f +++ mtx_lines (is_tmp f) idx i (v :: vals)
  /\ is_tmp (to_mtx_put f idx i v) = is_tmp f.
Proof.
  unfold to_mtx_put. cbn [mtx_lines].
  destruct (v =? 0); [split; reflexivity|].
  destruct (is_tmp f) eqn:E; cbn [jf_append jf_text is_tmp]; rewrite ?E;
    rewrite append_assoc; split; reflexivity.
Qed.

(** The loop of [csp_mplp_to_mtx] from any sample group on. *)
Lemma to_mtx_loop_ready (m : csp_mplp_t) (idx : Z) (suf : list csp_plp_t) :
  forall (pre : list csp_plp_t) (fa fd fo : jfile_t),
    sg_ready m (pre ++ suf) ->
    exists fa' fd' fo',
      for_range (List.length suf) (Arr.len pre + 1) (to_mtx_body m idx)
                (fa, fd, fo) = Ret (fa', fd', fo') /\
      is_tmp fa' = is_tmp fa /\ is_tmp fd' = is_tmp fd /\
      is_tmp fo' = is_tmp fo /\
      jf_text fa' = jf_text fa +++ mtx_lines (is_tmp fa) idx
                                   (Arr.len pre + 1) (map plp_ad suf) /\
      jf_text fd' = jf_text fd +++ mtx_lines (is_tmp fd) idx
                                   (Arr.len pre + 1) (map plp_dp suf) /\
      jf_text fo' = jf_text fo +++ mtx_lines (is_tmp fo) idx
                                   (Arr.len pre + 1) (map plp_oth suf).
Proof.
  induction suf as [|plp suf IH]; intros pre fa fd fo Hready;
    cbn [for_range List.length map].
  - exists fa, fd, fo. cbn [mtx_lines]. rewrite !append_nil_r. auto 10.
  - unfold to_mtx_body at 1.
    replace (Arr.len pre + 1 - 1) with (Arr.len pre) by lia.
    rewrite (sg_ready_at _ _ _ Hready). cbn [bind].
    destruct (IH (pre ++ [plp])
                 (to_mtx_put fa idx (Arr.len pre + 1) (plp_ad plp))
                 (to_mtx_put fd idx (Arr.len pre + 1) (plp_dp plp))
                 (to_mtx_put fo idx (Arr.len pre + 1) (plp_oth plp)))
      as (fa' & fd' & fo' & E & Ta & Td & To & Xa & Xd & Xo).
    { rewrite <- app_assoc. exact Hready. }
    replace (Arr.len (pre ++ [plp]) + 1) with (Arr.len pre + 1 + 1) in *
      by (rewrite len_app; reflexivity).
    exists fa', fd', fo'. rewrite E.
    destruct (to_mtx_put_lines fa idx (Arr.len pre + 1) (plp_ad plp)
                               (map plp_ad suf)) as [La Ia].
    destruct (to_mtx_put_lines fd idx (Arr.len pre + 1) (plp_dp plp)
                               (map plp_dp suf)) as [Ld Id].
    destruct (to_mtx_put_lines fo idx (Arr.len pre + 1) (plp_oth plp)
                               (map plp_oth suf)) as [Lo Io].
    repeat split; congruence.
Qed.

Lemma to_mtx_end_written (f f' : jfile_t) (idx : Z) (vals : list Z) :
  is_tmp f' = is_tmp f ->
  jf_text f' = jf_text f +++ mtx_lines (is_tmp f) idx 1 vals ->
  to_mtx_end f' = mtx_written f idx vals.
Proof.
  intros Ht Hx. unfold to_mtx_end, mtx_written, jf_append.
  destruct f' as [t' x']. cbn [is_tmp jf_text] in *. subst t' x'.
  destruct (is_tmp f); [rewrite append_assoc|rewrite append_nil_r];
    reflexivity.
Qed.

(** X11.  When every sample group holds a pileup, [csp_mplp_to_mtx]
    returns 0 and appends to each of the three files, for the sample groups
    1, 2, ... in order, one line for every count that is not 0 (with the
    site index in a final file, without it in a temporary one), and then a
    blank line to a temporary file. *)
Theorem csp_mplp_to_mtx_lines (m : csp_mplp_t) (plps : list csp_plp_t)
        (fs_ad fs_dp fs_oth : jfile_t) (idx : Z) :
  sg_ready m plps ->
  csp_mplp_to_mtx m fs_ad fs_dp fs_oth idx
  = Ret (0, (mtx_written fs_ad idx (map plp_ad plps),
             mtx_written fs_dp idx (map plp_dp plps),
             mtx_written fs_oth idx (map plp_oth plps))).
Proof.
  intros Hready. unfold csp_mplp_to_mtx.
  destruct (@to_mtx_loop_ready m idx plps [] fs_ad fs_dp fs_oth Hready)
    as (fa' & fd' & fo' & E & Ta & Td & To & Xa & Xd & Xo).
  destruct Hready as [Hn _]. rewrite Hn. unfold Arr.len at 1.
  rewrite Nat2Z.id. change (Arr.len (@nil csp_plp_t) + 1) with 1 in *.
  rewrite E. cbn [bind].
  rewrite (@to_mtx_end_written fs_ad fa' idx (map plp_ad plps)),
    (@to_mtx_end_written fs_dp fd' idx (map plp_dp plps)),
    (@to_mtx_end_written fs_oth fo' idx (map plp_oth plps)) by assumption.
  reflexivity.
Qed.

Lemma csp_mplp_to_mtx_lines_witness :
  csp_mplp_to_mtx mplp_two_groups jf_final
                  {| is_tmp := true; jf_text := "" |} jf_final 7
  = Ret (0, (mtx_written jf_final 7 [3; 0],
             mtx_written {| is_tmp := true; jf_text := "" |} 7 [5; 7],
             mtx_written jf_final 7 [0; 1])).
Proof.
  exact (@csp_mplp_to_mtx_lines mplp_two_groups
           [plp_counts 3 5 0; plp_counts 0 7 1] jf_final
           {| is_tmp := true; jf_text := "" |} jf_final 7
           mplp_two_groups_ready).
Defined.

(** ** Reset, then output *)

Lemma rd_map {A B} (f : A -> B) (a : list A) (i : Z) :
  Arr.rd (map f a) i
  = match Arr.rd a i with Ret x => Ret (f x) | UB => UB end.
Proof.
  unfold Arr.rd. destruct (0 <=? i); [|reflexivity].
  rewrite nth_error_map. destruct (nth_error a (Z.to_nat i)); reflexivity.
Qed.

(** A reset keeps every sample group on its pileup, now reset. *)
Lemma sg_plp_after_reset (m m' : csp_mplp_t) (i : Z) (plp : csp_plp_t) :
  csp_mplp_reset (Some m) = Some m' ->
  sg_plp m i = Ret plp ->
  sg_plp m' i = Ret (plp_after_reset plp).
Proof.
  intros [= <-]. unfold sg_plp. cbn [hsg hsg_iter].
  destruct (hsg_iter m) as [it|]; [|discriminate]. cbn [Arr.deref bind].
  destruct (Arr.rd it i) as [k|]; [|discriminate]. cbn [bind].
  destruct (hsg m) as [h|]; [|discriminate]. cbn [option_map Arr.deref bind].
  unfold KHash.kh_val, csp_map_sg_reset_val. rewrite rd_map.
  destruct (Arr.rd h k) as [[key [p|]]|]; cbn [bind snd Arr.deref];
    try discriminate.
  intros [= <-]. reflexivity.
Qed.

Lemma sg_ready_after_reset (m m' : csp_mplp_t) (plps : list csp_plp_t) :
  csp_mplp_reset (Some m) = Some m' ->
  sg_ready m plps ->
  sg_ready m' (map plp_after_reset plps).
Proof.
  intros E [Hn Hat]. split.
  - injection E as <-. cbn [nsg]. rewrite Hn. unfold Arr.len.
    rewrite length_map. reflexivity.
  - intros i plp' Hi. rewrite nth_error_map in Hi.
    destruct (nth_error plps i) as [plp|] eqn:Ei; [|discriminate].
    injection Hi as <-.
    apply (sg_plp_after_reset _ E). apply Hat. exact Ei.
Qed.

Lemma mtx_lines_zeros (tmp : bool) (idx : Z) (n : nat) :
  forall i, mtx_lines tmp idx i (repeat 0 n) = "".
Proof. induction n as [|n IH]; intros i; cbn; auto. Qed.

Lemma map_const_repeat {A B} (f : A -> B) (b : B) (l : list A) :
  (forall x, f x = b) -> map f l = repeat b (List.length l).
Proof.
  intros H. induction l as [|x l IH]; cbn; [|rewrite H, IH]; reflexivity.
Qed.

(** X12.  Right after a reset every sample group reads as missing: the
    aggregator still reaches each group's pileup, [csp_mplp_str_vcf]
    appends a tab and the missing-data marker once per sample group, and
    [csp_mplp_to_mtx] writes no line (a temporary file only gets its blank
    line). *)
Theorem reset_then_output (m : csp_mplp_t) (plps : list csp_plp_t) :
  sg_ready m plps ->
  exists m',
    csp_mplp_reset (Some m) = Some m' /\
    sg_ready m' (map plp_after_reset plps) /\
    (forall s,
        csp_mplp_str_vcf m' s
        = Ret (0, s +++ concat_str (repeat (tab +++ missing_field)
                                           (List.length plps)))) /\
    (forall fs_ad fs_dp fs_oth idx,
        csp_mplp_to_mtx m' fs_ad fs_dp fs_oth idx
        = Ret (0, (to_mtx_end fs_ad, to_mtx_end fs_dp, to_mtx_end fs_oth))).
Proof.
  intros Hready.
  destruct (csp_mplp_reset (Some m)) as [m'|] eqn:E; [|discriminate E].
  exists m'. split; [reflexivity|].
  pose proof (sg_ready_after_reset E Hready) as Hready'.
  split; [exact Hready'|]. split.
  - intros s. unfold csp_mplp_str_vcf.
    destruct Hready' as [Hn Hat]. rewrite Hn. unfold Arr.len.
    rewrite Nat2Z.id.
    rewrite (@str_vcf_loop_ready m' (fun _ => missing_field)
               (map plp_after_reset plps) []).
    + rewrite map_map.
      rewrite (@map_const_repeat _ _ _ (tab +++ missing_field)) by reflexivity.
      reflexivity.
    + split; assumption.
    + intros p t Hp. apply in_map_iff in Hp. destruct Hp as (p0 & <- & _).
      apply csp_plp_str_vcf_missing. reflexivity.
  - intros fa fd fo idx. unfold csp_mplp_to_mtx.
    destruct (@to_mtx_loop_ready m' idx (map plp_after_reset plps) []
                fa fd fo Hready')
      as (fa' & fd' & fo' & El & Ta & Td & To & Xa & Xd & Xo).
    destruct Hready' as [Hn _]. rewrite Hn. unfold Arr.len at 1.
    rewrite Nat2Z.id. change (Arr.len (@nil csp_plp_t) + 1) with 1 in *.
    rewrite El. cbn [bind].
    rewrite map_map in Xa, Xd, Xo.
    rewrite (@map_const_repeat _ _ _ 0) in Xa, Xd, Xo by reflexivity.
    rewrite mtx_lines_zeros, append_nil_r in Xa, Xd, Xo.
    destruct fa as [ta xa], fd as [td xd], fo as [to xo].
    destruct fa' as [ta' xa'], fd' as [td' xd'], fo' as [to' xo'].
    cbn [is_tmp jf_text] in *. subst. reflexivity.
Qed.

Lemma reset_then_output_witness :
  exists m',
    csp_mplp_reset (Some mplp_two_groups) = Some m' /\
    sg_ready m' (map plp_after_reset [plp_counts 3 5 0; plp_counts 0 7 1]) /\
    (forall s,
        csp_mplp_str_vcf m' s
        = Ret (0, s +++ concat_str (repeat (tab +++ missing_field) 2))) /\
    (forall fs_ad fs_dp fs_oth idx,
        csp_mplp_to_mtx m' fs_ad fs_dp fs_oth idx
        = Ret (0, (to_mtx_end fs_ad, to_mtx_end fs_dp, to_mtx_end fs_oth))).
Proof.
  exact (@reset_then_output mplp_two_groups
           [plp_counts 3 5 0; plp_counts 0 7 1] mplp_two_groups_ready).
Defined.

(** ** Sample groups without a pileup *)

Lemma csp_plp_str_vcf_returns_0 (p : csp_plp_t) (s t : string) (r : Z) :
  csp_plp_str_vcf p s = Ret (r, t) -> r = 0.
Proof.
  unfold csp_plp_str_vcf, join_arr_to_str.
  destruct (plp_tc p <=? 0); [intros [= <- _]; reflexivity|].
  destruct (get_idx_of_max (plp_gl p) 3); [|discriminate]. cbn [bind].
  destruct (Arr.rd gt a); [|discriminate]. cbn [bind].
  destruct (for_range _ _ _ _) as [gl|]; [|discriminate]. cbn [bind].
  destruct (plp_ngl p <=? Arr.len gl); [|discriminate]. cbn [bind].
  rewrite Z.ltb_irrefl.
  destruct (5 <=? Arr.len (plp_bc p)); [|discriminate]. cbn [bind].
  intros [= <- _]. reflexivity.
Qed.

Lemma str_vcf_loop_faults (m : csp_mplp_t) (k : nat) :
  forall (n : nat) (lo : Z) (s : string),
    (k < n)%nat -> sg_plp m (lo + Z.of_nat k) = UB ->
    str_vcf_loop m n lo s = UB.
Proof.
  induction k as [|k IH]; intros n lo s Hk Hbad;
    (destruct n as [|n]; [lia|]); cbn [str_vcf_loop].
  - replace (lo + Z.of_nat 0) with lo in Hbad by (cbn; lia).
    rewrite Hbad. reflexivity.
  - destruct (sg_plp m lo) as [plp|]; [|reflexivity]. cbn [bind].
    destruct (csp_plp_str_vcf plp (s +++ tab)) as [[r t]|] eqn:E;
      [|reflexivity].
    cbn [bind]. rewrite (csp_plp_str_vcf_returns_0 _ _ E).
    cbn [Z.ltb Z.compare]. apply IH; [lia|].
    replace (lo + 1 + Z.of_nat k) with (lo + Z.of_nat (S k)) by lia.
    exact Hbad.
Qed.

(** X13.  Both formatters visit every configured sample group: if one of
    them cannot be reached or has no pileup (a NULL pointer, as
    [csp_mplp_set_sg] leaves it), [csp_mplp_str_vcf] and [csp_mplp_to_mtx]
    run into undefined behaviour. *)
Theorem output_needs_every_pileup (m : csp_mplp_t) (k : Z) :
  0 <= k < nsg m -> sg_plp m k = UB ->
  (forall s, csp_mplp_str_vcf m s = UB) /\
  (forall fs_ad fs_dp fs_oth idx,
      csp_mplp_to_mtx m fs_ad fs_dp fs_oth idx = UB).
Proof.
  intros Hk Hbad. split.
  - intros s. unfold csp_mplp_str_vcf.
    apply (@str_vcf_loop_faults m (Z.to_nat k)); [lia|].
    replace (0 + Z.of_nat (Z.to_nat k)) with k by lia. exact Hbad.
  - intros fa fd fo idx. unfold csp_mplp_to_mtx.
    rewrite (@for_range_faults_at _ (fun _ => True) _ (Z.to_nat k));
      auto; [lia|].
    intros [[fa' fd'] fo'] _. unfold to_mtx_body.
    replace (1 + Z.of_nat (Z.to_nat k) - 1) with k by lia.
    rewrite Hbad. reflexivity.
Qed.

Lemma output_needs_every_pileup_witness :
  (forall s,
      csp_mplp_str_vcf
        (with_sg csp_mplp_init [("s1", Some csp_plp_init); ("s2", None)]
                 [0; 1] 2) s = UB) /\
  (forall fs_ad fs_dp fs_oth idx,
      csp_mplp_to_mtx
        (with_sg csp_mplp_init [("s1", Some csp_plp_init); ("s2", None)]
                 [0; 1] 2) fs_ad fs_dp fs_oth idx = UB).
Proof.
  apply (@output_needs_every_pileup
           (with_sg csp_mplp_init [("s1", Some csp_plp_init); ("s2", None)]
                    [0; 1] 2) 1).
  - cbn. lia.
  - reflexivity.
Defined.

(** ** Sample-group names: the state left behind *)

Lemma kh_get_nth {V} (h : KHash.t V) :
  forall (j : nat) (key : string),
    NoDup (KHash.keys h) -> nth_error (KHash.keys h) j = Some key ->
    KHash.kh_get h key = Z.of_nat j.
Proof.
  unfold KHash.kh_get, KHash.keys.
  induction h as [|[k v] h IH]; intros j key Hnd Hj; cbn [map fst] in *.
  - destruct j; discriminate.
  - inversion_clear Hnd as [|? ? Hout Hnd'].
    cbn [KHash.find_from]. destruct j as [|j]; cbn [nth_error] in Hj.
    + injection Hj as ->. rewrite String.eqb_refl. reflexivity.
    + destruct (String.eqb_spec k key) as [->|Hne].
      * exfalso. apply Hout. eapply nth_error_In. exact Hj.
      * rewrite find_from_shift. rewrite (IH j key) by assumption. lia.
Qed.

Lemma get_iters_first_buckets (names : list string) (it : list Z) :
  NoDup names -> List.length it = List.length names ->
  get_iters (sg_entries names) (map Some names) 0 it
  = Ret (GetDone (first_buckets (List.length names))).
Proof.
  intros Hnd Hlen.
  destruct (@get_iters_done (sg_entries names) names 0%nat it)
    as (it' & E).
  { intros x Hx. rewrite keys_sg_entries. exact Hx. }
  { lia. }
  cbn [Z.of_nat] in E. rewrite E. do 2 f_equal.
  apply (get_iters_done_inv (sg_entries names) (map Some names) 0%nat) in E.
  destruct E as (Hlen' & _ & Hat).
  apply nth_error_ext. intros j. unfold first_buckets.
  rewrite nth_error_map.
  destruct (Nat.lt_ge_cases j (List.length names)) as [Hj|Hj].
  - destruct (Hat j) as (name & E1 & E2 & _).
    { rewrite length_map. exact Hj. }
    cbn [Nat.add] in E2. rewrite E2.
    rewrite nth_error_map in E1.
    destruct (nth_error names j) as [x|] eqn:Ex; [|discriminate].
    injection E1 as ->.
    rewrite (@kh_get_nth _ (sg_entries names) j name).
    + rewrite nth_error_seq. destruct (Nat.ltb_spec j (List.length names));
        [reflexivity|lia].
    + rewrite keys_sg_entries. exact Hnd.
    + rewrite keys_sg_entries. exact Ex.
  - rewrite (proj2 (nth_error_None _ _)) by lia.
    rewrite (proj2 (nth_error_None _ _)) by (rewrite length_seq; lia).
    reflexivity.
Qed.

(** X14.  On a freshly initialised aggregator and a non-empty list of
    distinct names, [csp_mplp_set_sg] leaves exactly this state: the table
    holds the names in their order, each with a NULL pileup, [hsg_iter[i]]
    is bucket [i], [nsg] is the number of names, and no other field has
    changed. *)
Theorem csp_mplp_set_sg_fresh_state (names : list string) :
  names <> [] -> NoDup names ->
  csp_mplp_set_sg (Some csp_mplp_init) (Some (map Some names))
  = Ret (0, Some (with_sg csp_mplp_init (sg_entries names)
                          (first_buckets (List.length names))
                          (Arr.len names))).
Proof.
  intros Hne Hnd. unfold csp_mplp_set_sg.
  cbn [hsg hsg_iter csp_mplp_init].
  destruct (Z.eqb_spec (Arr.len (map Some names)) 0) as [E|_].
  { destruct names; [congruence|]. cbn [map] in E. rewrite len_cons in E.
    pose proof (len_nonneg (map Some names)). lia. }
  rewrite put_names_fresh by (cbn; auto). cbn [bind app KHash.kh_init].
  rewrite get_iters_first_buckets.
  - cbn [bind]. unfold Arr.len. rewrite length_map. reflexivity.
  - exact Hnd.
  - rewrite repeat_length. unfold Arr.len. rewrite length_map. lia.
Qed.

Lemma csp_mplp_set_sg_fresh_state_witness :
  csp_mplp_set_sg (Some csp_mplp_init) (Some [Some "s1"; Some "s2"])
  = Ret (0, Some (with_sg csp_mplp_init [("s1", None); ("s2", None)]
                          [0; 1] 2)).
Proof.
  apply (@csp_mplp_set_sg_fresh_state ["s1"; "s2"]); [discriminate|].
  repeat constructor; cbn; intuition discriminate.
Defined.

Lemma put_names_until (names : list string) (tail : list (option string)) :
  forall h : csp_map_sg_t,
    NoDup names -> (forall x, In x names -> ~ In x (KHash.keys h)) ->
    put_names h (map Some names ++ tail)
    = put_names (h ++ sg_entries names) tail.
Proof.
  induction names as [|name names IH]; intros h Hnd Hfresh;
    cbn [map app sg_entries].
  - rewrite app_nil_r. reflexivity.
  - inversion_clear Hnd as [|? ? Hout Hnd'].
    cbn [put_names].
    rewrite (@kh_put_new _ h name None (Hfresh name (or_introl eq_refl))).
    cbn [Z.leb Z.compare]. rewrite set_val_last. cbn [bind].
    rewrite IH.
    + rewrite <- app_assoc. reflexivity.
    + assumption.
    + intros x Hx. rewrite keys_app. intros Hin.
      apply in_app_or in Hin. destruct Hin as [Hin|[<-|[]]].
      * apply (Hfresh x); [right; assumption|assumption].
      * contradiction.
Qed.

(** X15.  The two ways [csp_mplp_set_sg] fails leave different states.  At
    a NULL name it returns -1 with the aggregator alive: the names before
    the NULL stay registered and [nsg] keeps its value.  At a name that is
    already registered it returns -1 after destroying the aggregator. *)
Theorem csp_mplp_set_sg_failure_states
        (p : csp_mplp_t) (names : list string) (rest : list (option string)) :
  NoDup names ->
  (forall x, In x names -> ~ In x (KHash.keys (sg_table p))) ->
  csp_mplp_set_sg (Some p) (Some (map Some names ++ None :: rest))
  = Ret (-1, Some (with_sg p (sg_table p ++ sg_entries names)
                           (sg_iters p (Arr.len (map Some names
                                                     ++ None :: rest)))
                           (nsg p))) /\
  (forall x,
      In x names \/ In x (KHash.keys (sg_table p)) ->
      csp_mplp_set_sg (Some p) (Some (map Some names ++ Some x :: rest))
      = Ret (-1, None)).
Proof.
  intros Hnd Hfresh.
  assert (Hlen : forall o, (Arr.len (map Some names ++ o :: rest) =? 0)
                           = false).
  { intros o. apply Z.eqb_neq. rewrite len_app, len_cons.
    pose proof (len_nonneg (map Some names)).
    pose proof (len_nonneg rest). lia. }
  split.
  - unfold csp_mplp_set_sg. rewrite Hlen. fold (sg_table p).
    rewrite put_names_until by assumption. reflexivity.
  - intros x Hx. unfold csp_mplp_set_sg. rewrite Hlen. fold (sg_table p).
    rewrite put_names_until by assumption. cbn [put_names].
    rewrite kh_put_old; [reflexivity|].
    rewrite keys_app, keys_sg_entries. apply in_or_app. tauto.
Qed.

Lemma csp_mplp_set_sg_failure_states_witness :
  csp_mplp_set_sg (Some csp_mplp_init) (Some [Some "s1"; None; Some "s3"])
  = Ret (-1, Some (with_sg csp_mplp_init [("s1", None)] [0; 0; 0] 0)) /\
  csp_mplp_set_sg (Some csp_mplp_init) (Some [Some "s1"; Some "s1"])
  = Ret (-1, None).
Proof.
  destruct (@csp_mplp_set_sg_failure_states csp_mplp_init ["s1"]
              [Some "s3"]) as [Hnull _].
  { repeat constructor. cbn. tauto. }
  { cbn. tauto. }
  destruct (@csp_mplp_set_sg_failure_states csp_mplp_init ["s1"] [])
    as [_ Hrep].
  { repeat constructor. cbn. tauto. }
  { cbn. tauto. }
  split; [exact Hnull|].
  apply (Hrep "s1"). left. left. reflexivity.
Defined.

(** ** SNP list: loading more than once *)

(** X16.  [get_snplist_from_vcf] keeps what the list already holds and
    counts only what it adds: loading a second file after a first one
    leaves the old entries, then the SNPs kept from the first file, then
    those kept from the second, and each call returns the number of its own
    additions.  Nothing is de-duplicated. *)
Theorem get_snplist_from_vcf_accumulates
        (f1 f2 : vcf_file) (hdr1 hdr2 : bcf_hdr_t) (pl : csp_snplist_t)
        (print_skip : Z) :
  vcf_hdr f1 = Some hdr1 -> vcf_hdr f2 = Some hdr2 ->
  let kept1 := map (stored_snp hdr1) (filter (accepted hdr1) (vcf_recs f1)) in
  let kept2 := map (stored_snp hdr2) (filter (accepted hdr2) (vcf_recs f2)) in
  exists l1 r1 r2,
    get_snplist_from_vcf (Some f1) (Some pl) print_skip
    = Ret (Arr.len kept1, Some l1, r1) /\
    get_snplist_from_vcf (Some f2) (Some l1) print_skip
    = Ret (Arr.len kept2, Some (pl ++ kept1 ++ kept2), r2).
Proof.
  intros H1 H2 kept1 kept2.
  exists (pl ++ kept1),
         (if vcf_end f1 =? -1 then 0 else -1),
         (if vcf_end f2 =? -1 then 0 else -1).
  unfold get_snplist_from_vcf. rewrite H1, H2, !snp_loop_filter.
  cbn [bind]. fold kept1 kept2.
  unfold kept1, kept2, Arr.len. rewrite !length_map, !Z.add_0_l.
  rewrite <- app_assoc.
  split; [destruct (vcf_end f1 =? -1)|destruct (vcf_end f2 =? -1)];
    reflexivity.
Qed.

Lemma get_snplist_from_vcf_accumulates_witness :
  exists l1 r1 r2,
    get_snplist_from_vcf (Some vcf_five_records) (Some []) 0
    = Ret (2, Some l1, r1) /\
    get_snplist_from_vcf (Some vcf_five_records) (Some l1) 0
    = Ret (2, Some [ {| chr := "chr1"; pos := 99; ref := 65; alt := 71 |};
                     {| chr := "chr2"; pos := 41; ref := 0; alt := 0 |};
                     {| chr := "chr1"; pos := 99; ref := 65; alt := 71 |};
                     {| chr := "chr2"; pos := 41; ref := 0; alt := 0 |} ],
           r2).
Proof.
  exact (@get_snplist_from_vcf_accumulates vcf_five_records vcf_five_records
           ["chr1"; "chr2"] ["chr1"; "chr2"] [] 0 eq_refl eq_refl).
Defined.

(** ** Matrix tags *)

(** X17.  [csp_get_mtx_idx] answers -1 exactly for a tag that is not in
    the table, and the unchecked [csp_get_mtx_value_func] then reads before
    the start of its table; for a tag of the table it answers the position
    of the tag, and the function found there returns the count that the
    tag names. *)
Theorem csp_get_mtx_idx_lookup (tag : string) :
  exists i,
    csp_get_mtx_idx tag = Ret i /\
    ((i = -1 /\ ~ In tag csp_mtx_tags /\ csp_get_mtx_value_func i = UB) \/
     (0 <= i < csp_mtx_ntags /\ Arr.rd csp_mtx_tags i = Ret tag /\
      exists f, csp_get_mtx_value_func i = Ret f /\
                forall mplp plp, f mplp plp = tagged_count tag plp)).
Proof.
  unfold csp_get_mtx_idx, tagged_count, csp_get_mtx_value_func. simpl.
  destruct (String.eqb_spec tag "AD") as [->|Hn0].
  { exists 0. split; [reflexivity|]. right.
    repeat split; try lia. eexists. split; reflexivity. }
  destruct (String.eqb_spec tag "DP") as [->|Hn1].
  { exists 1. split; [reflexivity|]. right.
    repeat split; try lia. eexists. split; reflexivity. }
  destruct (String.eqb_spec tag "OTH") as [->|Hn2].
  { exists 2. split; [reflexivity|]. right.
    repeat split; try lia. eexists. split; reflexivity. }
  exists (-1). split; [reflexivity|]. left.
  repeat split. intros [E|[E|[E|[]]]]; congruence.
Qed.

Lemma append_length (a b : string) :
  String.length (a +++ b) = (String.length a + String.length b)%nat.
Proof. induction a as [|c a IH]; cbn; [|rewrite IH]; reflexivity. Qed.

Lemma append_cancel_r (s : string) :
  forall a b : string, a +++ s = b +++ s -> a = b.
Proof.
  induction a as [|c a IH]; intros [|d b] E; cbn in E.
  - reflexivity.
  - exfalso. apply (f_equal String.length) in E. cbn in E.
    rewrite append_length in E. lia.
  - exfalso. apply (f_equal String.length) in E. cbn in E.
    rewrite append_length in E. lia.
  - injection E as -> E. f_equal. apply IH. exact E.
Qed.

(** X18.  [csp_get_mtx_fn] never gives two tags the same file name. *)
Theorem csp_get_mtx_fn_injective (tag1 tag2 : string) :
  csp_get_mtx_fn tag1 = csp_get_mtx_fn tag2 -> tag1 = tag2.
Proof.
  unfold csp_get_mtx_fn. cbn [String.append].
  intros E. injection E as E.
  apply (append_cancel_r ".mtx"). exact E.
Qed.

Lemma csp_get_mtx_fn_injective_witness :
  csp_get_mtx_fn "DP" = "cellSNP.tag.DP.mtx" /\ "DP" = "DP".
Proof.
  split; [reflexivity|].
  apply (@csp_get_mtx_fn_injective "DP" "DP"). reflexivity.
Defined.

(** ** Sample-group names: a later call *)

(** With every name in the table, the second loop writes one iterator per
    name and leaves an array that is too short. *)
Lemma get_iters_overflow (h : csp_map_sg_t) (names : list string) :
  forall (i : nat) (it : list Z),
    (forall x, In x names -> In x (KHash.keys h)) ->
    (i <= List.length it)%nat ->
    (List.length it < i + List.length names)%nat ->
    get_iters h (map Some names) (Z.of_nat i) it = UB.
Proof.
  induction names as [|name names IH]; intros i it Hin Hle Hlen;
    cbn [map get_iters List.length] in *.
  - lia.
  - cbn [Arr.deref bind].
    destruct (Z.eqb_spec (KHash.kh_get h name) (KHash.kh_end h)) as [E|E].
    { apply kh_get_end_iff in E. exfalso. apply E, Hin. left; reflexivity. }
    destruct (Nat.lt_ge_cases i (List.length it)) as [Hi|Hi].
    + rewrite wr_of_nat by exact Hi. cbn [bind].
      replace (Z.of_nat i + 1) with (Z.of_nat (S i)) by lia.
      apply IH.
      * intros x Hx. apply Hin. right; exact Hx.
      * rewrite length_upd. lia.
      * rewrite length_upd. lia.
    + unfold Arr.wr, Arr.in_bounds, Arr.len.
      destruct (Z.ltb_spec (Z.of_nat i) (Z.of_nat (List.length it)));
        [lia|].
      rewrite andb_false_r. reflexivity.
Qed.

(** X19.  A later call of [csp_mplp_set_sg] reuses the iterator array of
    the first one.  With distinct names that are new to the table it is
    accepted when they fit in that array: the old names stay in the table,
    the new ones are added and [nsg] becomes their number.  When there are
    more names than the array has entries, the call writes past its end. *)
Theorem csp_mplp_set_sg_later_call
        (p : csp_mplp_t) (it : list Z) (names : list string) :
  hsg_iter p = Some it -> names <> [] -> NoDup names ->
  (forall x, In x names -> ~ In x (KHash.keys (sg_table p))) ->
  ((List.length names <= List.length it)%nat ->
   exists it',
     csp_mplp_set_sg (Some p) (Some (map Some names))
     = Ret (0, Some (with_sg p (sg_table p ++ sg_entries names) it'
                             (Arr.len names)))) /\
  ((List.length it < List.length names)%nat ->
   csp_mplp_set_sg (Some p) (Some (map Some names)) = UB).
Proof.
  intros Hit Hne Hnd Hfresh.
  assert (Hlen : (Arr.len (map Some names) =? 0) = false).
  { apply Z.eqb_neq. destruct names; [congruence|]. cbn [map].
    rewrite len_cons. pose proof (len_nonneg (map Some names)). lia. }
  assert (Hin : forall x, In x names ->
                          In x (KHash.keys (sg_table p ++ sg_entries names))).
  { intros x Hx. rewrite keys_app, keys_sg_entries. apply in_or_app. auto. }
  split; intros Hsize; unfold csp_mplp_set_sg; rewrite Hlen, Hit;
    fold (sg_table p); rewrite put_names_fresh by assumption; cbn [bind].
  - destruct (@get_iters_done (sg_table p ++ sg_entries names) names
                0%nat it Hin) as (it' & E); [lia|].
    cbn [Z.of_nat] in E. rewrite E. cbn [bind].
    exists it'. unfold Arr.len. rewrite length_map. reflexivity.
  - pose proof (@get_iters_overflow (sg_table p ++ sg_entries names) names
                  0%nat it Hin) as E.
    cbn [Z.of_nat] in E. rewrite E by lia. reflexivity.
Qed.

Lemma csp_mplp_set_sg_later_call_witness :
  (exists it',
      csp_mplp_set_sg
        (Some (with_sg csp_mplp_init [("s1", None); ("s2", None)] [0; 1] 2))
        (Some (map Some ["s3"]))
      = Ret (0, Some (with_sg
                        (with_sg csp_mplp_init [("s1", None); ("s2", None)]
                                 [0; 1] 2)
                        [("s1", None); ("s2", None); ("s3", None)] it' 1)))
  /\
  csp_mplp_set_sg
    (Some (with_sg csp_mplp_init [("s1", None)] [0] 1))
    (Some (map Some ["s2"; "s3"])) = UB.
Proof.
  split.
  - apply (@csp_mplp_set_sg_later_call
             (with_sg csp_mplp_init [("s1", None); ("s2", None)] [0; 1] 2)
             [0; 1] ["s3"]);
      try reflexivity; try discriminate.
    + repeat constructor. cbn. tauto.
    + cbn. intuition congruence.
    + cbn. lia.
  - apply (@csp_mplp_set_sg_later_call
             (with_sg csp_mplp_init [("s1", None)] [0] 1) [0] ["s2"; "s3"]);
      try reflexivity; try discriminate.
    + repeat constructor; cbn; intuition congruence.
    + cbn. intuition congruence.
    + cbn. lia.
Defined.
